(** * Versioned metadata and storage keys of @polkadot/types

    A shallow embedding of
    - [packages/types/src/metadata/MetadataVersioned.ts]: the lazily
      migrating, caching wrapper around a decoded [MetadataAll];
    - the StorageKey class of [packages/types/src/primitive]: the decoder
      that turns a raw storage key back into its hashed arguments.

    JavaScript calls either return or throw, and the methods of
    [MetadataVersioned] mutate the private [#converted] map of [this]; both
    are explicit here: a call yields an [outcome], and a method is a function
    from the instance before the call to an outcome and the instance after.

    The definitions come first (modules [Metadata], [Storage] and [Sample]);
    the facts about them follow (modules [MetadataFacts] and [StorageFacts]
    in general, [Runs] and [StorageRuns] on the instances of [Sample]). *)

From stdpp Require Import gmap strings list fin_maps.
From Stdlib Require Import ZArith Lia.
From Stdlib Require Import Init.Byte.

(** ** Outcomes of a call *)

(** What a [throw] carries. The asserts of the two sources get a constructor
    of their own; everything thrown by code of other files is a [Raised] with
    a message. *)
Inductive Error : Type :=
  | CannotConvertMetadata (from to : Z)
      (* `Cannot convert metadata from version ${this.version} to ${version}` *)
  | CannotConvertEnum (index asked : Z)
      (* the Enum getter asVn used on a value that holds another variant *)
  | ExpectedParams (n : nat)
      (* `Expected an array of ${n} values as params to a Map query` *)
  | UnableToConvert
      (* `Unable to convert input ${value} to StorageKey` *)
  | TypeError (what : string)
      (* a property read off undefined, undefined destructured *)
  | Raised (msg : string).

Inductive outcome (A : Type) : Type :=
  | Ok (a : A)
  | Throw (e : Error).
Arguments Ok {A} a.
Arguments Throw {A} e.

Definition is_ok {A} (o : outcome A) : bool :=
  match o with Ok _ => true | Throw _ => false end.

#[global] Instance outcome_ret : MRet outcome := fun _ a => Ok a.
#[global] Instance outcome_bind : MBind outcome := fun _ _ f o =>
  match o with Ok a => f a | Throw e => Throw e end.
#[global] Instance outcome_fmap : FMap outcome := fun _ _ f o =>
  match o with Ok a => Ok (f a) | Throw e => Throw e end.

(** ** The MetadataVersioned class *)

Module Metadata.

#[local] Open Scope Z_scope.

(** type MetaVersions = 'latest' | 9 | 10 | 11 | 12 | 13 | 14 : the keys of
    the [#converted] map. The numeric keys stay numbers because
    [#getVersion] computes with them ([version - 1]). *)
Inductive MetaVersions : Type :=
  | latest
  | ver (n : Z).

#[global] Instance MetaVersions_eq_dec : EqDecision MetaVersions.
Proof. solve_decision. Defined.

#[global] Instance MetaVersions_countable : Countable MetaVersions.
Proof.
  refine (inj_countable'
            (fun k => match k with latest => None | ver n => Some n end)
            (fun o => match o with None => latest | Some n => ver n end) _).
  intros []; reflexivity.
Defined.

(** type MetaAsX = 'asV9' | ... | 'asV14' : the names of the getters. *)
Inductive MetaAsX : Type := AsV9 | AsV10 | AsV11 | AsV12 | AsV13 | AsV14.

Definition LATEST_VERSION : Z := 14.

(** Modelled from the spec: the Enum codec of ../codec is not among the
    sources. A MetadataAll is "a version-tagged union selecting one of the
    fixed schema shapes": the tag [index] and the value of the active
    variant. *)
Record MetadataAll (T : Type) : Type := mkMetadataAll {
  index : Z;
  inner : T
}.
Arguments mkMetadataAll {T} index inner.
Arguments index {T} m.
Arguments inner {T} m.

(** What MetadataVersioned.ts imports. The registry, the decoded schema
    values, the magic number and the JSON values are objects of other files
    and nothing below looks inside them. *)
Class Imports : Type := {
  Registry : Type;
  MetaMapped : Type;
  MagicNumber : Type;
  AnyJson : Type;
  (* ./v9/toV10 ... ./v14/toLatest: (registry, input, metaVersion) => output *)
  toV10 : Registry -> MetaMapped -> Z -> MetaMapped;
  toV11 : Registry -> MetaMapped -> Z -> MetaMapped;
  toV12 : Registry -> MetaMapped -> Z -> MetaMapped;
  toV13 : Registry -> MetaMapped -> Z -> MetaMapped;
  toV14 : Registry -> MetaMapped -> Z -> MetaMapped;
  toLatest : Registry -> MetaMapped -> Z -> MetaMapped;
  (* ./util toCallsOnly, and the MetadataV14 that createType decodes from it *)
  toCallsOnly : Registry -> MetaMapped -> MetaMapped;
  (* Struct.toJSON of ../codec: the JSON of the two fields *)
  Struct_toJSON : MagicNumber -> MetadataAll MetaMapped -> AnyJson
}.

Section Definitions.

Context `{Imports}.

(** Modelled from the spec: the Enum getter asVn gives the value of the
    active variant and throws on any other variant. *)
Definition MetadataAll_as (n : Z) (m : MetadataAll MetaMapped) : outcome MetaMapped :=
  if decide (index m = n) then Ok (inner m)
  else Throw (CannotConvertEnum (index m) n).

(** Modelled from the spec: registry.createType('MetadataAll', value, index)
    builds the variant with the given index around the given value. *)
Definition createType_MetadataAll (value : MetaMapped) (idx : Z)
  : MetadataAll MetaMapped :=
  mkMetadataAll idx value.

(** An instance: the registry it was built with, the two Struct fields and
    the private [#converted] map. [ran] is no field of the class: it records,
    oldest first, the key for which each call of a [fromPrev] transform was
    made on this instance. *)
Record MetadataVersioned : Type := mkMetadataVersioned {
  registry : Registry;
  magicNumber : MagicNumber;
  metadata : MetadataAll MetaMapped;
  converted : gmap MetaVersions MetaMapped;
  ran : list MetaVersions
}.

(** constructor (registry, value), for a value that gives the two fields:
    they are stored, and the [#converted] map starts empty. *)
Definition new (r : Registry) (magic : MagicNumber) (meta : MetadataAll MetaMapped)
  : MetadataVersioned :=
  mkMetadataVersioned r magic meta ∅ [].

(** get version (): this.#metadata().index *)
Definition version (this : MetadataVersioned) : Z := index (metadata this).

(** A method: from [this] before the call to the outcome and [this] after. *)
Definition M (A : Type) : Type :=
  MetadataVersioned -> outcome A * MetadataVersioned.

Definition ret {A} (a : A) : M A := fun this => (Ok a, this).
Definition throw {A} (e : Error) : M A := fun this => (Throw e, this).
Definition bind {A B} (m : M A) (k : A -> M B) : M B := fun this =>
  match m this with
  | (Ok a, this') => k a this'
  | (Throw e, this') => (Throw e, this')
  end.
Definition gets {A} (f : MetadataVersioned -> A) : M A :=
  fun this => (Ok (f this), this).
Definition lift {A} (o : MetadataVersioned -> outcome A) : M A :=
  fun this => (o this, this).

Notation "'let*' x := m 'in' k" := (bind m (fun x => k))
  (at level 10, x name, m at level 200, k at level 200, only parsing).

(** #assertVersion *)
Definition assertVersion (v : Z) : M bool := fun this =>
  if decide (version this <= v)
  then (Ok (bool_decide (version this = v)), this)
  else (Throw (CannotConvertMetadata (version this) v), this).

(** this.#converted.set(version, fromPrev(this.registry, prev, this.version)) *)
Definition convert (v : MetaVersions)
    (fromPrev : Registry -> MetaMapped -> Z -> MetaMapped) (prev : MetaMapped)
  : M unit := fun this =>
  (Ok tt,
   mkMetadataVersioned (registry this) (magicNumber this) (metadata this)
     (<[v := fromPrev (registry this) prev (version this)]> (converted this))
     (ran this ++ [v])).

(** The number in the name asPrev: `asV${LATEST_VERSION}` for 'latest',
    `asV${version - 1}` otherwise. *)
Definition asPrev (v : MetaVersions) : Z :=
  match v with
  | latest => LATEST_VERSION
  | ver n => n - 1
  end.

(** #getVersion. [this_asPrev] is the getter that this[asPrev] selects: each
    caller below passes the one that [asPrev] names ([asPrev_resolved]).
    [converted.get] reads undefined off a missing key; that never reaches a
    caller ([getVersion_defined]). *)
Definition getVersion (v : MetaVersions)
    (fromPrev : Registry -> MetaMapped -> Z -> MetaMapped)
    (this_asPrev : M MetaMapped) : M MetaMapped :=
  let fromCache : M MetaMapped :=
    let* has := gets (fun this => bool_decide (is_Some (converted this !! v))) in
    let* _ :=
      if has : bool then ret tt
      else
        let* prev := this_asPrev in
        convert v fromPrev prev in
    lift (fun this =>
            match converted this !! v with
            | Some x => Ok x
            | None => Throw (TypeError "undefined")
            end) in
  match v with
  | ver n =>
      let* same := assertVersion n in
      if same : bool
      then lift (fun this => MetadataAll_as n (metadata this))
      else fromCache
  | latest => fromCache
  end.

(** get asV9 () *)
Definition asV9 : M MetaMapped :=
  let* _ := assertVersion 9 in
  lift (fun this => MetadataAll_as 9 (metadata this)).

Definition asV10 : M MetaMapped := getVersion (ver 10) toV10 asV9.
Definition asV11 : M MetaMapped := getVersion (ver 11) toV11 asV10.
Definition asV12 : M MetaMapped := getVersion (ver 12) toV12 asV11.
Definition asV13 : M MetaMapped := getVersion (ver 13) toV13 asV12.
Definition asV14 : M MetaMapped := getVersion (ver 14) toV14 asV13.

(** get asLatest () *)
Definition asLatest : M MetaMapped := getVersion latest toLatest asV14.

(** this[name] for a name of type MetaAsX. *)
Definition getter (name : MetaAsX) : M MetaMapped :=
  match name with
  | AsV9 => asV9
  | AsV10 => asV10
  | AsV11 => asV11
  | AsV12 => asV12
  | AsV13 => asV13
  | AsV14 => asV14
  end.

(** `asV${n}` as a MetaAsX, when there is such a getter. *)
Definition asX (n : Z) : option MetaAsX :=
  if decide (n = 9) then Some AsV9
  else if decide (n = 10) then Some AsV10
  else if decide (n = 11) then Some AsV11
  else if decide (n = 12) then Some AsV12
  else if decide (n = 13) then Some AsV13
  else if decide (n = 14) then Some AsV14
  else None.

(** this[`asV${n}`] for a number; a property that is not there reads as
    undefined. *)
Definition asV (n : Z) : M MetaMapped :=
  match asX n with
  | Some name => getter name
  | None => throw (TypeError "undefined")
  end.

(** toJSON (): force asLatest, then super.toJSON(). *)
Definition toJSON : M AnyJson :=
  let* _ := asLatest in
  gets (fun this => Struct_toJSON (magicNumber this) (metadata this)).

(** get asCallsOnly (). It builds an object, so it runs on the store [h] of
    the instances built so far: a reference is a position in the store,
    [this] names the instance the getter is read off, and
    [new MetadataVersioned(...)] appends:
    new MetadataVersioned(this.registry, { magicNumber: this.magicNumber,
      metadata: this.registry.createType('MetadataAll',
                  toCallsOnly(this.registry, this.asLatest), LATEST_VERSION) }) *)
Definition asCallsOnly (this : nat) (h : list MetadataVersioned)
  : outcome nat * list MetadataVersioned :=
  match h !! this with
  | None => (Throw (TypeError "undefined"), h)
  | Some o =>
      match asLatest o with
      | (Ok l, o') =>
          let h' := <[this := o']> h in
          (Ok (length h'),
           h' ++ [new (registry o') (magicNumber o')
                    (createType_MetadataAll (toCallsOnly (registry o') l)
                       LATEST_VERSION)])
      | (Throw e, o') => (Throw e, <[this := o']> h)
      end
  end.

(** *** What the cache is expected to hold *)

(** The transform that produces version [n] from version [n - 1]. *)
Definition transform (n : Z) : Registry -> MetaMapped -> Z -> MetaMapped :=
  if decide (n = 10) then toV10
  else if decide (n = 11) then toV11
  else if decide (n = 12) then toV12
  else if decide (n = 13) then toV13
  else if decide (n = 14) then toV14
  else fun _ x _ => x.

(** [chain r V x k]: the one-step transforms V -> V+1 -> ... -> V+k applied
    in turn to [x]; each is given the source version [V] as metaVersion. *)
Fixpoint chain (r : Registry) (V : Z) (x : MetaMapped) (k : nat) : MetaMapped :=
  match k with
  | O => x
  | S k' => transform (V + Z.of_nat (S k')) r (chain r V x k') V
  end.

(** The embedded value of [this] migrated to version [n]. *)
Definition migrated (this : MetadataVersioned) (n : Z) : MetaMapped :=
  chain (registry this) (version this) (inner (metadata this))
    (Z.to_nat (n - version this)).

Definition normalized (this : MetadataVersioned) : MetaMapped :=
  toLatest (registry this) (migrated this LATEST_VERSION) (version this).

(** The only value a key of [#converted] may hold, if it may hold one. *)
Definition expected (this : MetadataVersioned) (k : MetaVersions)
  : option MetaMapped :=
  match k with
  | ver n =>
      if decide (9 <= version this < n /\ n <= 14)
      then Some (migrated this n) else None
  | latest =>
      if decide (9 <= version this <= 14)
      then Some (normalized this) else None
  end.

(** The invariant of an instance: the cache holds migrated values only, and
    a key is in the cache exactly when its transform ran, which it did once. *)
Record inv (this : MetadataVersioned) : Prop := mkInv {
  inv_expected :
    forall k x, converted this !! k = Some x -> expected this k = Some x;
  inv_once : NoDup (ran this);
  inv_ran : forall k, k ∈ ran this <-> is_Some (converted this !! k)
}.

(** The fields no method writes. *)
Definition same_core (s s' : MetadataVersioned) : Prop :=
  registry s' = registry s /\ magicNumber s' = magicNumber s /\
  metadata s' = metadata s.

(** The keys above [n] are left alone. *)
Definition keeps_above (n : Z) (s s' : MetadataVersioned) : Prop :=
  converted s' !! latest = converted s !! latest /\
  forall m, n < m -> converted s' !! ver m = converted s !! ver m.

(** [#getVersion] turns to the cache: the target is 'latest', or a version
    above the source version. *)
Definition to_cache (v : MetaVersions) (this : MetadataVersioned) : Prop :=
  match v with
  | latest => True
  | ver n => version this < n
  end.

(** What the getter of version [n] does on an instance that satisfies the
    invariant: it keeps the invariant, writes the cache only, and only at
    keys up to [n], never drops an entry, returns exactly when the source
    version is one of 9 .. n, and then returns the migrated value, which a
    target above the source version leaves in the cache. *)
Definition sound (n : Z) (acc : M MetaMapped) : Prop :=
  forall s, inv s ->
    exists r s',
      acc s = (r, s') /\ inv s' /\ same_core s s' /\ keeps_above n s s' /\
      (converted s ⊆ converted s') /\
      (9 <= version s <= n ->
         r = Ok (migrated s n) /\
         (version s < n -> converted s' !! ver n = Some (migrated s n))) /\
      (is_ok r = true -> 9 <= version s <= n).

(** The cache has no gap: with a version it holds every version between the
    source version and that one, and with 'latest' every version up to
    14. *)
Definition no_gap (this : MetadataVersioned) : Prop :=
  (forall n, is_Some (converted this !! ver n) ->
     forall m, version this < m <= n -> is_Some (converted this !! ver m)) /\
  (is_Some (converted this !! latest) ->
     forall m, version this < m <= 14 -> is_Some (converted this !! ver m)).

(** What the getter of version [n] does to the gaps: it leaves none, and
    when it returns, every version from the source version up to [n] is in
    the cache. *)
Definition fills (n : Z) (acc : M MetaMapped) : Prop :=
  forall s, inv s -> no_gap s ->
    no_gap (acc s).2 /\
    (is_ok (acc s).1 = true ->
       forall m, version s < m <= n -> is_Some (converted (acc s).2 !! ver m)).

(** The accesses a caller can make on an instance. asCallsOnly and
    getUniqTypes reach the instance itself through asLatest only. *)
Inductive Access : Type :=
  | Get (name : MetaAsX)
  | GetLatest
  | Export.

Definition after (a : Access) (this : MetadataVersioned) : MetadataVersioned :=
  match a with
  | Get name => snd (getter name this)
  | GetLatest => snd (asLatest this)
  | Export => snd (toJSON this)
  end.

(** The instances there are: built by the constructor, then accessed. *)
Inductive reachable : MetadataVersioned -> Prop :=
  | reachable_new r magic meta : reachable (new r magic meta)
  | reachable_after a this : reachable this -> reachable (after a this).

(** Step by step: asV(V), then asV(V+1), ..., then asV(V+k). *)
Fixpoint stepwise (V : Z) (k : nat) : M MetaMapped :=
  match k with
  | O => asV V
  | S k' => let* _ := stepwise V k' in asV (V + Z.of_nat (S k'))
  end.

End Definitions.

End Metadata.

(** ** The StorageKey class *)

Module Storage.

(** A Uint8Array. *)
Definition U8a : Type := list byte.

(** value.subarray(begin): the bytes from [begin] on; nothing when [begin]
    is past the end. *)
Definition subarray_from (value : U8a) (begin : nat) : U8a := drop begin value.

(** value.subarray(begin, end) for begin <= end: the bytes at begin ..
    end - 1 that the array has; both ends are clamped to its length. *)
Definition subarray (value : U8a) (begin end_ : nat) : U8a :=
  take (end_ - begin) (drop begin value).

(** StorageHasher: the enum over the keys of AllHashers. *)
Inductive StorageHasher : Type :=
  | Blake2_128
  | Blake2_128Concat
  | Blake2_256
  | Identity
  | Twox128
  | Twox256
  | Twox64Concat.

(** hasher.type: the name of the variant. *)
Definition hasher_type (h : StorageHasher) : string :=
  match h with
  | Blake2_128 => "Blake2_128"
  | Blake2_128Concat => "Blake2_128Concat"
  | Blake2_256 => "Blake2_256"
  | Identity => "Identity"
  | Twox128 => "Twox128"
  | Twox256 => "Twox256"
  | Twox64Concat => "Twox64Concat"
  end.

(** hasher type -> [initialHashLength, canDecodeKey] *)
Definition HASHER_MAP : gmap string (nat * bool) :=
  list_to_map
    [("Blake2_128", (16, false));
     ("Blake2_128Concat", (16, true));
     ("Blake2_256", (32, false));
     ("Identity", (0, true));
     ("Twox128", (16, false));
     ("Twox256", (32, false));
     ("Twox64Concat", (8, true))].

(** The table of the spec, by hasher kind: (hash length, decodable). *)
Definition hasher_kind_table (h : StorageHasher) : nat * bool :=
  match h with
  | Identity => (0, true)
  | Twox64Concat => (8, true)
  | Blake2_128Concat => (16, true)
  | Twox128 => (16, false)
  | Blake2_128 => (16, false)
  | Twox256 => (32, false)
  | Blake2_256 => (32, false)
  end.

(** [s] ends in [suffix]. *)
Definition ends_with (suffix s : string) : bool :=
  (String.length suffix <=? String.length s)%nat &&
  String.eqb
    (String.substring (String.length s - String.length suffix)
       (String.length suffix) s)
    suffix.

(** SiLookupTypeId: an index into the type table of the metadata. *)
Definition SiLookupTypeId : Type := nat.

(** StorageEntryTypeLatest = Plain(SiLookupTypeId) | Map({hashers, key, value}) *)
Record MapType : Type := mkMapType {
  hashers : list StorageHasher;
  key : SiLookupTypeId;
  value : SiLookupTypeId
}.

Inductive StorageEntryTypeLatest : Type :=
  | Plain (asPlain : SiLookupTypeId)
  | Map (asMap : MapType).

(** StorageEntryMetadataLatest; of its fields only [type] is read here. *)
Record StorageEntryMetadataLatest : Type := mkMeta {
  type : StorageEntryTypeLatest
}.

(** What the Bytes constructor is handed as the key. *)
Inductive KeyValue : Type :=
  | KeyUndefined
  | KeyString (s : string)
  | KeyU8a (u8a : U8a)
  | KeyBytes (content : U8a).   (* a Bytes object, here a StorageKey *)

(** What StorageKey.ts imports or reaches through the registry. *)
Class Imports : Type := {
  Registry : Type;
  (* a decoded codec value of any type but Raw *)
  Value : Type;
  (* what a caller passes to a storage entry function *)
  Param : Type;
  AnyJson : Type;
  Value_encodedLength : Value -> nat;
  Value_toHuman : Value -> AnyJson;
  (* toHuman of a byte sequence, and of an array of values *)
  U8a_toHuman : U8a -> AnyJson;
  Array_toHuman : list AnyJson -> AnyJson;
  (* registry.createLookupType(type); type is undefined when the tuple of
     key types is shorter than the list of hashers *)
  createLookupType : Registry -> option SiLookupTypeId -> string;
  (* registry.createType(name, u8a) for a name other than 'Raw' *)
  createTyped : Registry -> string -> U8a -> outcome Value;
  (* registry.lookup.getSiType(key).def.asTuple *)
  getSiType_asTuple : Registry -> SiLookupTypeId -> outcome (list SiLookupTypeId);
  (* ../metadata/util getSiName(registry.lookup, type) *)
  getSiName : Registry -> SiLookupTypeId -> outcome string;
  (* the constructor of Bytes: the content it decodes from the key *)
  Bytes_decode : Registry -> KeyValue -> outcome U8a
}.

Section Definitions.

Context `{Imports}.

(** Modelled from the spec: the Raw codec of ../codec is not among the
    sources; it is "a raw byte sequence", holding the bytes it is given.
    Every other codec value is a [Typed] one. *)
Inductive Codec : Type :=
  | Raw (u8a : U8a)
  | Typed (v : Value).

Definition encodedLength (c : Codec) : nat :=
  match c with
  | Raw u8a => length u8a
  | Typed v => Value_encodedLength v
  end.

Definition toHuman_codec (c : Codec) : AnyJson :=
  match c with
  | Raw u8a => U8a_toHuman u8a
  | Typed v => Value_toHuman v
  end.

(** registry.createType(name, u8a) *)
Definition createType (registry : Registry) (name : string) (u8a : U8a)
  : outcome Codec :=
  if decide (name = "Raw") then Ok (Raw u8a)
  else Typed <$> createTyped registry name u8a.

Definition unwrapStorageSi (t : StorageEntryTypeLatest) : SiLookupTypeId :=
  match t with
  | Plain asPlain => asPlain
  | Map asMap => value asMap
  end.

Definition unwrapStorageType (registry : Registry) (t : StorageEntryTypeLatest)
    (isOptional : bool) : outcome string :=
  outputType ← getSiName registry (unwrapStorageSi t);
  Ok (if isOptional then "Option<" +:+ outputType +:+ ">" else outputType).

(** One round of the reduce of decodeHashers. [offset] is the variable the
    callback closes over, [result] the accumulator of the reduce. *)
Definition decodeHashers_step (registry : Registry) (value : U8a)
    (acc : nat * list Codec) (entry : StorageHasher * option SiLookupTypeId)
  : outcome (nat * list Codec) :=
  let '(offset, result) := acc in
  let '(hasher, type) := entry in
  match HASHER_MAP !! hasher_type hasher with
  | None => Throw (TypeError "undefined is not iterable")
  | Some (hashLen, canDecode) =>
      decoded ←
        (if canDecode : bool
         then createType registry (createLookupType registry type)
                (subarray_from value (offset + hashLen))
         else createType registry "Raw" (subarray value offset (offset + hashLen)));
      Ok (offset + hashLen + (if canDecode : bool then encodedLength decoded else 0),
          result ++ [decoded])
  end.

(** The callback of the reduce on an accumulator that may be a throw: a
    throw in one round ends the reduce. *)
Definition decodeHashers_round (registry : Registry) (value : U8a)
    (acc : outcome (nat * list Codec)) (entry : StorageHasher * option SiLookupTypeId)
  : outcome (nat * list Codec) :=
  acc ≫= fun a => decodeHashers_step registry value a entry.

(** The reduce of decodeHashers, with the offset it ends at. *)
Definition decodeHashers_reduce (registry : Registry) (value : U8a)
    (hashers : list (StorageHasher * option SiLookupTypeId))
  : outcome (nat * list Codec) :=
  fold_left (decodeHashers_round registry value) hashers (Ok (32, [])).

Definition decodeHashers (registry : Registry) (value : U8a)
    (hashers : list (StorageHasher * option SiLookupTypeId))
  : outcome (list Codec) :=
  snd <$> decodeHashers_reduce registry value hashers.

(** hashers.map((h, i) => [h, keys[i]]) *)
Definition pair_hashers (hashers : list StorageHasher) (keys : list SiLookupTypeId)
  : list (StorageHasher * option SiLookupTypeId) :=
  imap (fun i h => (h, keys !! i)) hashers.

Definition decodeArgsFromMeta (registry : Registry) (value : U8a)
    (meta : option StorageEntryMetadataLatest) : outcome (list Codec) :=
  match meta with
  | None => Ok []
  | Some m =>
      match type m with
      | Plain _ => Ok []
      | Map asMap =>
          keys ←
            (if decide (length (hashers asMap) = 1) then Ok [key asMap]
             else getSiType_asTuple registry (key asMap));
          decodeHashers registry value (pair_hashers (hashers asMap) keys)
      end
  end.

(** a || b on string | undefined: the empty string is falsy too. *)
Definition or_else (a b : option string) : option string :=
  match a with
  | Some EmptyString => b
  | Some s => Some s
  | None => b
  end.

(** A StorageKey: the content of the Bytes it extends and its private
    fields. [_args] is declared without an initial value: it is undefined
    until something is assigned to it. *)
Record StorageKey : Type := mkStorageKey {
  content : U8a;
  _args : option (list Codec);
  _meta : option StorageEntryMetadataLatest;
  _outputType : string;
  _method : option string;
  _section : option string
}.

(** The getters. *)
Definition args (this : StorageKey) : option (list Codec) := _args this.
Definition meta (this : StorageKey) : option StorageEntryMetadataLatest := _meta this.
Definition method (this : StorageKey) : option string := _method this.
Definition outputType (this : StorageKey) : string := _outputType this.
Definition section (this : StorageKey) : option string := _section this.

(** this.toU8a(true): the bytes without their length prefix. *)
Definition toU8a_bare (this : StorageKey) : U8a := content this.

(** A StorageEntry: a function from the params of a query to a key, with the
    properties meta, method and section. *)
Record StorageEntry : Type := mkStorageEntry {
  fn_call : list Param -> outcome U8a;
  fn_meta : option StorageEntryMetadataLatest;
  fn_method : string;
  fn_section : string
}.

(** The first argument of the constructor. *)
Inductive KeyInput : Type :=
  | InUndefined
  | InString (s : string)
  | InU8a (u8a : U8a)
  | InStorageKey (k : StorageKey)
  | InStorageEntry (fn : StorageEntry)
  | InArray (fn : StorageEntry) (params : option (list Param))
  | InOther.

Record Decoded : Type := mkDecoded {
  d_key : KeyValue;
  d_method : option string;
  d_section : option string
}.

(** decodeStorageKey. An [InArray] holds a StorageEntry, so the assert that
    its first element is a function holds; its params default to []. *)
Definition decodeStorageKey (value : KeyInput) : outcome Decoded :=
  match value with
  | InStorageKey k => Ok (mkDecoded (KeyBytes (content k)) (method k) (section k))
  | InUndefined => Ok (mkDecoded KeyUndefined None None)
  | InString s => Ok (mkDecoded (KeyString s) None None)
  | InU8a u8a => Ok (mkDecoded (KeyU8a u8a) None None)
  | InStorageEntry fn =>
      k ← fn_call fn [];
      Ok (mkDecoded (KeyU8a k) (Some (fn_method fn)) (Some (fn_section fn)))
  | InArray fn params =>
      let params := default [] params in
      _ ← match fn_meta fn with
          | Some (mkMeta (Map map)) =>
              if decide (length params = length (hashers map)) then Ok tt
              else Throw (ExpectedParams (length (hashers map)))
          | _ => Ok tt
          end;
      k ← fn_call fn params;
      Ok (mkDecoded (KeyU8a k) (Some (fn_method fn)) (Some (fn_section fn)))
  | InOther => Throw UnableToConvert
  end.

Definition getMeta (value : KeyInput) : option StorageEntryMetadataLatest :=
  match value with
  | InStorageKey k => meta k
  | InStorageEntry fn => fn_meta fn
  | InArray fn _ => fn_meta fn
  | _ => None
  end.

Definition getType (registry : Registry) (value : KeyInput) : outcome string :=
  match value with
  | InStorageKey k => Ok (outputType k)
  | InStorageEntry fn =>
      match fn_meta fn with
      | Some m => unwrapStorageType registry (type m) false
      | None => Throw (TypeError "type of undefined")
      end
  | InArray fn _ =>
      match fn_meta fn with
      | Some m => unwrapStorageType registry (type m) false
      | None => Ok "Raw"
      end
  | _ => Ok "Raw"
  end.

(** setMeta (meta, section, method): [this] before, the outcome and [this]
    after. The catch around decodeArgsFromMeta has an empty body; this.meta
    there is the getter of [_meta]. *)
Definition setMeta (registry : Registry)
    (meta : option StorageEntryMetadataLatest) (section method : option string)
    (this : StorageKey) : outcome unit * StorageKey :=
  let this1 :=
    mkStorageKey (content this) (_args this) meta (_outputType this)
      (or_else method (_method this)) (or_else section (_section this)) in
  let typed :=
    match meta with
    | Some m =>
        match unwrapStorageType registry (type m) false with
        | Ok t =>
            Ok (mkStorageKey (content this1) (_args this1) (_meta this1) t
                  (_method this1) (_section this1))
        | Throw e => Throw e
        end
    | None => Ok this1
    end in
  match typed with
  | Throw e => (Throw e, this1)
  | Ok this2 =>
      match decodeArgsFromMeta registry (toU8a_bare this2) (_meta this2) with
      | Ok a =>
          (Ok tt,
           mkStorageKey (content this2) (Some a) (_meta this2) (_outputType this2)
             (_method this2) (_section this2))
      | Throw _ => (Ok tt, this2)
      end
  end.

(** Partial<StorageKeyExtra> *)
Record Override : Type := mkOverride {
  o_method : option string;
  o_section : option string
}.

(** constructor (registry, value, override = {}) *)
Definition new (registry : Registry) (value : KeyInput) (override : Override)
  : outcome StorageKey :=
  d ← decodeStorageKey value;
  bytes ← Bytes_decode registry (d_key d);
  t ← getType registry value;
  let this := mkStorageKey bytes None None t None None in
  match setMeta registry (getMeta value)
          (or_else (o_section override) (d_section d))
          (or_else (o_method override) (d_method d)) this with
  | (Ok _, this') => Ok this'
  | (Throw e, _) => Throw e
  end.

(** is (key): key.section === this.section && key.method === this.method *)
Definition is_ (this key : StorageKey) : bool :=
  bool_decide (section key = section this) &&
  bool_decide (method key = method this).

(** toHuman (): this._args.length ? this._args.map(...) : super.toHuman() *)
Definition toHuman (this : StorageKey) : outcome AnyJson :=
  match _args this with
  | None => Throw (TypeError "length of undefined")
  | Some [] => Ok (U8a_toHuman (content this))
  | Some a => Ok (Array_toHuman (toHuman_codec <$> a))
  end.

(** *** The decoding as the specification words it *)

(** [threads registry value offset hashers args offset']: starting at
    [offset], the hashers in their order yield [args] and end at [offset'].
    An opaque hasher takes its hash length off the key as a raw value; a
    decodable one skips its hash and decodes the declared type after it. *)
Inductive threads (registry : Registry) (value : U8a)
  : nat -> list (StorageHasher * option SiLookupTypeId) -> list Codec -> nat -> Prop :=
  | threads_done offset :
      threads registry value offset [] [] offset
  | threads_opaque offset h t rest args offset' :
      (hasher_kind_table h).2 = false ->
      threads registry value (offset + (hasher_kind_table h).1) rest args offset' ->
      threads registry value offset ((h, t) :: rest)
        (Raw (subarray value offset (offset + (hasher_kind_table h).1)) :: args)
        offset'
  | threads_decodable offset h t rest decoded args offset' :
      (hasher_kind_table h).2 = true ->
      createType registry (createLookupType registry t)
        (subarray_from value (offset + (hasher_kind_table h).1)) = Ok decoded ->
      threads registry value
        (offset + (hasher_kind_table h).1 + encodedLength decoded) rest args offset' ->
      threads registry value offset ((h, t) :: rest) (decoded :: args) offset'.

End Definitions.

End Storage.

(** ** Concrete instances to run the definitions on *)

Module Sample.

#[local] Open Scope Z_scope.

(** Schema values that list the transforms they went through, in a registry
    with nothing in it: toV10 leaves 10, ..., toLatest leaves 0 and
    toCallsOnly leaves -1. *)
Definition metadata_imports : Metadata.Imports :=
  {| Metadata.Registry := unit;
     Metadata.MetaMapped := list Z;
     Metadata.MagicNumber := Z;
     Metadata.AnyJson := Z * (Z * list Z);
     Metadata.toV10 := fun _ x _ => x ++ [10];
     Metadata.toV11 := fun _ x _ => x ++ [11];
     Metadata.toV12 := fun _ x _ => x ++ [12];
     Metadata.toV13 := fun _ x _ => x ++ [13];
     Metadata.toV14 := fun _ x _ => x ++ [14];
     Metadata.toLatest := fun _ x _ => x ++ [0];
     Metadata.toCallsOnly := fun _ x => x ++ [-1];
     Metadata.Struct_toJSON := fun magic m => (magic, (Metadata.index m, Metadata.inner m)) |}.

(** 0x6174656d, "meta" *)
Definition MAGIC_NUMBER : Z := 1635018093.

(** A new instance around version [V] metadata. *)
Definition fresh (V : Z) : @Metadata.MetadataVersioned metadata_imports :=
  @Metadata.new metadata_imports tt MAGIC_NUMBER (Metadata.mkMetadataAll V []).

(** A registry that knows one type, "u8", under every lookup id: a value of
    it is one byte, and decoded from no bytes at all it is the default of
    the type, 0. Its type table has no tuples, so that asTuple throws on
    every type, and every storage type is called "u8". *)
Definition storage_imports : Storage.Imports :=
  {| Storage.Registry := unit;
     Storage.Value := byte;
     Storage.Param := list byte;
     Storage.AnyJson := list (list byte);
     Storage.Value_encodedLength := fun _ => 1%nat;
     Storage.Value_toHuman := fun b => [[b]];
     Storage.U8a_toHuman := fun u8a => [u8a];
     Storage.Array_toHuman := fun l => concat l;
     Storage.createLookupType := fun _ _ => "u8";
     Storage.createTyped := fun _ _ u8a =>
       match u8a with
       | b :: _ => Ok b
       | [] => Ok x00
       end;
     Storage.getSiType_asTuple := fun _ _ => Throw (Raised "not a tuple");
     Storage.getSiName := fun _ _ => Ok "u8";
     Storage.Bytes_decode := fun _ k =>
       match k with
       | Storage.KeyUndefined => Ok []
       | Storage.KeyString _ => Throw (Raised "hex strings are not decoded here")
       | Storage.KeyU8a u8a => Ok u8a
       | Storage.KeyBytes u8a => Ok u8a
       end |}.

(** The 32 bytes of the two hashes of module and field name. *)
Definition prefix : Storage.U8a := repeat x00 32.

(** A map entry with one hasher over key type 0 and value type 1. *)
Definition map_meta (h : Storage.StorageHasher) : Storage.StorageEntryMetadataLatest :=
  Storage.mkMeta (Storage.Map (Storage.mkMapType [h] 0%nat 1%nat)).

(** Its storage entry function: the prefix, then the params as they are. *)
Definition map_entry (h : Storage.StorageHasher) : @Storage.StorageEntry storage_imports :=
  @Storage.mkStorageEntry storage_imports
    (fun params => Ok (prefix ++ concat params))
    (Some (map_meta h)) "account" "system".

(** What the constructor makes of [map_entry Twox64Concat] called without
    params: the prefix alone as the key, from which the argument decodes as
    the default of its type. *)
Definition short_key : @Storage.StorageKey storage_imports :=
  @Storage.mkStorageKey storage_imports prefix
    (Some [@Storage.Typed storage_imports x00])
    (Some (map_meta Storage.Twox64Concat)) "u8" (Some "account") (Some "system").

(** A map entry with two hashers whose key type, 0, is no tuple: it is the
    "u8" of the registry. *)
Definition pair_meta : Storage.StorageEntryMetadataLatest :=
  Storage.mkMeta
    (Storage.Map
       (Storage.mkMapType [Storage.Blake2_128Concat; Storage.Twox64Concat]
          0%nat 1%nat)).

Definition pair_entry : @Storage.StorageEntry storage_imports :=
  @Storage.mkStorageEntry storage_imports
    (fun params => Ok (prefix ++ concat params))
    (Some pair_meta) "account" "system".

(** What the constructor makes of [pair_entry] with the two params 1 and 2:
    the key, the descriptor, the names, and no arguments at all. *)
Definition unread_key : @Storage.StorageKey storage_imports :=
  @Storage.mkStorageKey storage_imports (prefix ++ [x01; x02]) None
    (Some pair_meta) "u8" (Some "account") (Some "system").

End Sample.

(** ** More of the code: democracy votes, era rewards, contract gas *)

From Equations Require Import Equations.

(** *** api-derive, democracy: compareRationals, calcPassing, calcVotes *)

Module Democracy.

#[local] Open Scope Z_scope.

(** What BN's div and mod throw on a zero divisor (the assert of bn.js). *)
Definition zero_divisor : Error := Raised "Assertion failed".

(** compareRationals (n1, d1, n2, d2). A BN is an integer of any size; its
    div truncates towards zero ([Z.quot]), its mod has the sign of the
    dividend ([Z.rem]) and both assert that the divisor is not zero, which
    is where the two tests of a denominator against 0 come from: q1 is
    computed before q2. Every further round of the while (true) loop is the
    recursive call on (d2, r2, d1, r1); the denominators shrink in absolute
    value, which is why the loop ends. *)
Equations compareRationals (n1 d1 n2 d2 : Z) : outcome bool
  by wf (Z.abs_nat d1 + Z.abs_nat d2)%nat lt :=
compareRationals n1 d1 n2 d2 with decide (d1 = 0) := {
  | left _ => Throw zero_divisor
  | right Hd1 with decide (d2 = 0) := {
    | left _ => Throw zero_divisor
    | right Hd2 with decide (Z.quot n1 d1 < Z.quot n2 d2) := {
      | left _ => Ok true
      | right _ with decide (Z.quot n2 d2 < Z.quot n1 d1) := {
        | left _ => Ok false
        | right _ with decide (Z.rem n2 d2 = 0) := {
          | left _ => Ok false
          | right Hr2 with decide (Z.rem n1 d1 = 0) := {
            | left _ => Ok true
            | right Hr1 =>
                compareRationals d2 (Z.rem n2 d2) d1 (Z.rem n1 d1) } } } } } }.
Next Obligation.
  pose proof (Z.rem_bound_abs n1 d1 Hd1).
  pose proof (Z.rem_bound_abs n2 d2 Hd2). lia.
Qed.

(** PalletDemocracyVoteThreshold *)
Inductive VoteThreshold : Type :=
  | SuperMajorityApprove
  | SuperMajorityAgainst
  | SimpleMajority.

(** interface ApproxState *)
Record ApproxState : Type := mkApproxState {
  votedAye : Z;
  votedNay : Z;
  votedTotal : Z
}.

(** Tally: the figures a current referendum status carries. *)
Record Tally : Type := mkTally {
  ayes : Z;
  nays : Z;
  turnout : Z
}.

(** The status of a referendum as calcVotes reads it: its threshold, and the
    tally that only the current generation has (isCurrentStatus is
    !!status.tally). *)
Record ReferendumStatus : Type := mkStatus {
  threshold : VoteThreshold;
  tally : option Tally
}.

(** Vote: aye or nay, with the index of its conviction (0 for None, 1 to 6
    for Locked1x to Locked6x). *)
Record Vote : Type := mkVote {
  isAye : bool;
  conviction_index : Z
}.

Section WithImports.

(** bnSqrt of @polkadot/util, and the accounts, which are only passed on. *)
Variable bnSqrt : Z -> outcome Z.
Variable AccountId : Type.

(** DeriveReferendumVote *)
Record DeriveReferendumVote : Type := mkDerived {
  accountId : AccountId;
  balance : Z;
  vote : Vote
}.

(** DeriveReferendumVoteState *)
Record DeriveReferendumVoteState : Type := mkVoteState {
  allAye : list DeriveReferendumVote;
  allNay : list DeriveReferendumVote;
  voteCount : Z;
  voteCountAye : Z;
  voteCountNay : Z;
  state_votedAye : Z;
  state_votedNay : Z;
  state_votedTotal : Z
}.

(** A vote state read as an ApproxState: the three fields of that name. *)
Definition approx (state : DeriveReferendumVoteState) : ApproxState :=
  mkApproxState (state_votedAye state) (state_votedNay state)
    (state_votedTotal state).

(** DeriveReferendumVotes: { ...state, isPassing, votes } *)
Record DeriveReferendumVotes : Type := mkVotes {
  state : DeriveReferendumVoteState;
  isPassing : bool;
  votes : list DeriveReferendumVote
}.

Definition calcPassingOther (threshold : VoteThreshold) (sqrtElectorate : Z)
    (st : ApproxState) : outcome bool :=
  sqrtVoters ← bnSqrt (votedTotal st);
  if decide (sqrtVoters = 0) then Ok false
  else
    match threshold with
    | SuperMajorityApprove =>
        compareRationals (votedNay st) sqrtVoters (votedAye st) sqrtElectorate
    | _ =>
        compareRationals (votedNay st) sqrtElectorate (votedAye st) sqrtVoters
    end.

Definition calcPassing (threshold : VoteThreshold) (sqrtElectorate : Z)
    (st : ApproxState) : outcome bool :=
  match threshold with
  | SimpleMajority => Ok (bool_decide (votedNay st < votedAye st))
  | _ => calcPassingOther threshold sqrtElectorate st
  end.

(** The votes a vote adds: balance.muln(isDefault ? 1 : index)
    .divn(isDefault ? 10 : 1), where isDefault is index === 0. *)
Definition counted (derived : DeriveReferendumVote) : Z :=
  let index := conviction_index (vote derived) in
  let isDefault := bool_decide (index = 0) in
  Z.quot (balance derived * (if isDefault then 1 else index))
    (if isDefault then 10 else 1).

(** The callback of the reduce of calcVotesPrev. *)
Definition calcVotesPrev_step (st : DeriveReferendumVoteState)
    (derived : DeriveReferendumVote) : DeriveReferendumVoteState :=
  if isAye (vote derived) then
    mkVoteState (allAye st ++ [derived]) (allNay st)
      (voteCount st + 1) (voteCountAye st + 1) (voteCountNay st)
      (state_votedAye st + counted derived) (state_votedNay st)
      (state_votedTotal st + counted derived)
  else
    mkVoteState (allAye st) (allNay st ++ [derived])
      (voteCount st + 1) (voteCountAye st) (voteCountNay st + 1)
      (state_votedAye st) (state_votedNay st + counted derived)
      (state_votedTotal st + counted derived).

Definition calcVotesPrev (votesFor : list DeriveReferendumVote)
  : DeriveReferendumVoteState :=
  fold_left calcVotesPrev_step votesFor (mkVoteState [] [] 0 0 0 0 0 0).

(** The forEach of calcVotesCurrent: the two arrays it pushes to. *)
Definition calcVotesCurrent_push
    (acc : list DeriveReferendumVote * list DeriveReferendumVote)
    (derived : DeriveReferendumVote)
  : list DeriveReferendumVote * list DeriveReferendumVote :=
  if isAye (vote derived) then (acc.1 ++ [derived], acc.2)
  else (acc.1, acc.2 ++ [derived]).

Definition calcVotesCurrent (tally : Tally) (votes : list DeriveReferendumVote)
  : DeriveReferendumVoteState :=
  let '(allAye, allNay) := fold_left calcVotesCurrent_push votes ([], []) in
  mkVoteState allAye allNay
    (Z.of_nat (length allAye) + Z.of_nat (length allNay))
    (Z.of_nat (length allAye)) (Z.of_nat (length allNay))
    (ayes tally) (nays tally) (turnout tally).

(** calcVotes (sqrtElectorate, referendum, votes); of the referendum only
    its status is read. *)
Definition calcVotes (sqrtElectorate : Z) (status : ReferendumStatus)
    (votes : list DeriveReferendumVote) : outcome DeriveReferendumVotes :=
  let state :=
    match tally status with
    | Some t => calcVotesCurrent t votes
    | None => calcVotesPrev votes
    end in
  isPassing ← calcPassing (threshold status) sqrtElectorate (approx state);
  Ok (mkVotes state isPassing votes).

(** The ayes and the nays among votes, in their order, and what a list of
    votes counts for. *)
Definition votesAye (votes : list DeriveReferendumVote) : list DeriveReferendumVote :=
  filter (fun derived => isAye (vote derived) = true) votes.

Definition votesNay (votes : list DeriveReferendumVote) : list DeriveReferendumVote :=
  filter (fun derived => ~ isAye (vote derived) = true) votes.

Definition countedAll (votes : list DeriveReferendumVote) : Z :=
  foldr (fun derived sum => counted derived + sum) 0 votes.

End WithImports.

Arguments mkDerived {AccountId} accountId balance vote.
Arguments accountId {AccountId} d.
Arguments balance {AccountId} d.
Arguments vote {AccountId} d.
Arguments mkVoteState {AccountId}.
Arguments allAye {AccountId} d.
Arguments allNay {AccountId} d.
Arguments voteCount {AccountId} d.
Arguments voteCountAye {AccountId} d.
Arguments voteCountNay {AccountId} d.
Arguments state_votedAye {AccountId} d.
Arguments state_votedNay {AccountId} d.
Arguments state_votedTotal {AccountId} d.
Arguments approx {AccountId} state.
Arguments mkVotes {AccountId}.
Arguments state {AccountId} d.
Arguments isPassing {AccountId} d.
Arguments votes {AccountId} d.
Arguments counted {AccountId} derived.
Arguments calcVotesPrev_step {AccountId} st derived.
Arguments calcVotesPrev {AccountId} votesFor.
Arguments calcVotesCurrent_push {AccountId} acc derived.
Arguments calcVotesCurrent {AccountId} tally votes.
Arguments calcVotes bnSqrt {AccountId} sqrtElectorate status votes.
Arguments votesAye {AccountId} votes.
Arguments votesNay {AccountId} votes.
Arguments countedAll {AccountId} votes.

End Democracy.

(** *** api-derive, staking: mapRewards *)

Module EraRewards.

#[local] Open Scope Z_scope.

Section WithEras.

(** An EraIndex is only passed on, and so is a Balance; of an
    Option<Balance> only unwrapOrDefault (), of the codec, is called. *)
Variable EraIndex : Type.
Variable Balance : Type.
Variable OptionBalance : Type.
Variable unwrapOrDefault : OptionBalance -> Balance.

(** DeriveEraRewards *)
Record DeriveEraRewards : Type := mkEraRewards {
  era : EraIndex;
  eraReward : Balance
}.

(** eras.map((era, index) => ({ era, eraReward:
    optRewards[index].unwrapOrDefault() })), from position [index] on: a
    reward that is not there is undefined, and calling a method on it
    throws. *)
Fixpoint mapRewards_from (index : nat) (eras : list EraIndex)
    (optRewards : list OptionBalance) : outcome (list DeriveEraRewards) :=
  match eras with
  | [] => Ok []
  | era :: rest =>
      match optRewards !! index with
      | None => Throw (TypeError "unwrapOrDefault of undefined")
      | Some o =>
          cons (mkEraRewards era (unwrapOrDefault o)) <$>
            mapRewards_from (S index) rest optRewards
      end
  end.

Definition mapRewards (eras : list EraIndex) (optRewards : list OptionBalance)
  : outcome (list DeriveEraRewards) :=
  mapRewards_from 0 eras optRewards.

End WithEras.

Arguments mkEraRewards {EraIndex Balance} era eraReward.
Arguments era {EraIndex Balance} d.
Arguments eraReward {EraIndex Balance} d.
Arguments mapRewards_from {EraIndex Balance OptionBalance} unwrapOrDefault index eras optRewards.
Arguments mapRewards {EraIndex Balance OptionBalance} unwrapOrDefault eras optRewards.

End EraRewards.

(** *** api-contract, Contract: #getGas *)

Module Contract.

#[local] Open Scope Z_scope.

(** new BN(5_000_000_000_000).isub(BN_ONE) *)
Definition MAX_CALL_GAS : Z := 5000000000000 - 1.

(** api.consts.system as #getGas reads it: blockWeights.maxBlock when there
    are blockWeights, maximumBlockWeight otherwise, which older runtimes
    have. *)
Record SystemConsts : Type := mkConsts {
  blockWeights_maxBlock : option Z;
  maximumBlockWeight : option Z
}.

(** The weight that #getGas takes 64% of. *)
Definition blockWeight (consts : SystemConsts) : option Z :=
  match blockWeights_maxBlock consts with
  | Some maxBlock => Some maxBlock
  | None => maximumBlockWeight consts
  end.

(** #getGas (_gasLimit, isCall = false), on the gas limit as bnToBn gives
    it. *)
Definition getGas (consts : SystemConsts) (gasLimit : Z) (isCall : bool)
  : outcome Z :=
  if decide (gasLimit <= 0) then
    if isCall then Ok MAX_CALL_GAS
    else
      match blockWeight consts with
      | Some weight => Ok (Z.quot (weight * 64) 100)
      | None => Throw (TypeError "muln of undefined")
      end
  else Ok gasLimit.

End Contract.

(** *** More of MetadataVersioned and of StorageKey *)

Module MetadataMore.

Import Metadata.

#[local] Open Scope Z_scope.

Section Definitions.

Context `{Imports}.

(** getUniqTypes of ./util *)
Variable util_getUniqTypes : Registry -> MetaMapped -> bool -> outcome (list string).

(** getUniqTypes (throwError):
    getUniqTypes(this.registry, this.asLatest, throwError) *)
Definition getUniqTypes (throwError : bool) : M (list string) := fun this =>
  match asLatest this with
  | (Ok l, this') => (util_getUniqTypes (registry this') l throwError, this')
  | (Throw e, this') => (Throw e, this')
  end.

(** The keys the cache of an instance of version [V] can come to hold: the
    versions above [V] up to 14, and 'latest'. *)
Definition cacheable (V : Z) : list MetaVersions :=
  (ver <$> seqZ (V + 1) (14 - V)) ++ [latest].

End Definitions.

End MetadataMore.

Module StorageMore.

Import Storage.

Section Definitions.

Context `{Imports}.

(** What the hashers take off the key: for each its hash length, and for a
    decodable one the encodedLength of its argument as well. *)
Fixpoint consumed (entries : list (StorageHasher * option SiLookupTypeId))
    (args : list Codec) : nat :=
  match entries, args with
  | (h, _) :: entries, decoded :: args =>
      (hasher_kind_table h).1 +
      (if (hasher_kind_table h).2 then encodedLength decoded else 0) +
      consumed entries args
  | _, _ => 0
  end.

(** No hasher of the list is decodable. *)
Definition all_opaque (entries : list (StorageHasher * option SiLookupTypeId))
  : Prop :=
  Forall (fun entry => (hasher_kind_table entry.1).2 = false) entries.

(** The raw values that opaque hashers take off the key from [offset] on. *)
Fixpoint raw_args (value : U8a) (offset : nat)
    (entries : list (StorageHasher * option SiLookupTypeId)) : list Codec :=
  match entries with
  | [] => []
  | (h, _) :: entries =>
      Raw (subarray value offset (offset + (hasher_kind_table h).1)) ::
      raw_args value (offset + (hasher_kind_table h).1) entries
  end.

End Definitions.

End StorageMore.

(** *** More instances to run on *)

Module Sample2.

#[local] Open Scope Z_scope.

(** bnSqrt as the whole part of the square root. *)
Definition bnSqrt (value : Z) : outcome Z :=
  if decide (value < 0) then Throw (Raised "square root of negative numbers is not supported")
  else Ok (Z.sqrt value).

(** Three votes of accounts 1, 2 and 3: an aye of 100 at conviction 1, a nay
    of 50 at the default conviction, an aye of 10 at conviction 2. *)
Definition three_votes : list (Democracy.DeriveReferendumVote nat) :=
  [Democracy.mkDerived 1%nat 100 (Democracy.mkVote true 1);
   Democracy.mkDerived 2%nat 50 (Democracy.mkVote false 0);
   Democracy.mkDerived 3%nat 10 (Democracy.mkVote true 2)].

(** getUniqTypes that finds no type. *)
Definition no_types
  : @Metadata.Registry Sample.metadata_imports ->
    @Metadata.MetaMapped Sample.metadata_imports -> bool -> outcome (list string) :=
  fun _ _ _ => Ok [].

(** A registry as [Sample.storage_imports], but one that cannot name any
    type. *)
Definition storage_unnamed : Storage.Imports :=
  {| Storage.Registry := unit;
     Storage.Value := byte;
     Storage.Param := list byte;
     Storage.AnyJson := list (list byte);
     Storage.Value_encodedLength := fun _ => 1%nat;
     Storage.Value_toHuman := fun b => [[b]];
     Storage.U8a_toHuman := fun u8a => [u8a];
     Storage.Array_toHuman := fun l => concat l;
     Storage.createLookupType := fun _ _ => "u8";
     Storage.createTyped := fun _ _ u8a =>
       match u8a with
       | b :: _ => Ok b
       | [] => Ok x00
       end;
     Storage.getSiType_asTuple := fun _ _ => Throw (Raised "not a tuple");
     Storage.getSiName := fun _ _ => Throw (Raised "no such type");
     Storage.Bytes_decode := fun _ k =>
       match k with
       | Storage.KeyUndefined => Ok []
       | Storage.KeyString _ => Throw (Raised "hex strings are not decoded here")
       | Storage.KeyU8a u8a => Ok u8a
       | Storage.KeyBytes u8a => Ok u8a
       end |}.

(** The map entry of [Sample.map_entry] in that registry. *)
Definition unnamed_entry : @Storage.StorageEntry storage_unnamed :=
  @Storage.mkStorageEntry storage_unnamed
    (fun params => Ok (Sample.prefix ++ concat params))
    (Some (Sample.map_meta Storage.Twox64Concat)) "account" "system".

End Sample2.

(** ** Facts about MetadataVersioned *)

Module MetadataFacts.

Import Metadata.

#[local] Open Scope Z_scope.

Section Facts.

Context `{Imports}.

Implicit Types (s : MetadataVersioned) (n V : Z) (v k : MetaVersions).

(** *** The fields that stay *)

Lemma same_core_refl s : same_core s s.
Proof. by repeat split. Qed.

Lemma same_core_trans s1 s2 s3 :
  same_core s1 s2 -> same_core s2 s3 -> same_core s1 s3.
Proof. intros (?&?&?) (?&?&?). repeat split; congruence. Qed.

Lemma same_core_version s s' : same_core s s' -> version s' = version s.
Proof. intros (_&_&Hm). unfold version. by rewrite Hm. Qed.

Lemma same_core_migrated s s' n : same_core s s' -> migrated s' n = migrated s n.
Proof. intros (Hr&_&Hm). unfold migrated, version. by rewrite Hr, Hm. Qed.

Lemma same_core_expected s s' k : same_core s s' -> expected s' k = expected s k.
Proof.
  intros Hc. pose proof (same_core_version _ _ Hc) as Hv.
  destruct k; unfold expected, normalized; rewrite Hv.
  - rewrite (same_core_migrated _ _ _ Hc). by destruct Hc as (->&_).
  - by rewrite (same_core_migrated _ _ _ Hc).
Qed.

Lemma keeps_above_refl n s : keeps_above n s s.
Proof. by split. Qed.

Lemma keeps_above_trans n n' s1 s2 s3 :
  n <= n' -> keeps_above n s1 s2 -> keeps_above n' s2 s3 -> keeps_above n' s1 s3.
Proof.
  intros Hle [Hl1 Hv1] [Hl2 Hv2]. split; [congruence|].
  intros m Hm. rewrite Hv2 by done. apply Hv1. lia.
Qed.

(** *** The chain *)

Lemma migrated_same s : migrated s (version s) = inner (metadata s).
Proof. unfold migrated. by rewrite Z.sub_diag. Qed.

Lemma migrated_step s n :
  version s < n ->
  migrated s n = transform n (registry s) (migrated s (n - 1)) (version s).
Proof.
  intros Hlt. unfold migrated.
  replace (Z.to_nat (n - version s)) with (S (Z.to_nat (n - 1 - version s))) by lia.
  cbn [chain]. f_equal. f_equal. lia.
Qed.

(** All five steps, written out. *)
Lemma chain_9_14 r x :
  chain r 9 x 5 = toV14 r (toV13 r (toV12 r (toV11 r (toV10 r x 9) 9) 9) 9) 9.
Proof. reflexivity. Qed.

(** *** The four ways through #getVersion *)

Lemma getVersion_same n f p s :
  version s = n -> getVersion (ver n) f p s = (Ok (inner (metadata s)), s).
Proof.
  intros Hv. unfold getVersion, bind, assertVersion, lift, MetadataAll_as.
  rewrite decide_True by lia. rewrite bool_decide_eq_true_2 by done.
  by rewrite decide_True.
Qed.

Lemma getVersion_downgrade n f p s :
  n < version s ->
  getVersion (ver n) f p s = (Throw (CannotConvertMetadata (version s) n), s).
Proof.
  intros Hv. unfold getVersion, bind, assertVersion.
  by rewrite decide_False by lia.
Qed.

Lemma getVersion_hit v f p s x :
  to_cache v s -> converted s !! v = Some x -> getVersion v f p s = (Ok x, s).
Proof.
  intros Hc Hx. unfold getVersion, bind, assertVersion, gets, ret, lift.
  destruct v as [|n]; simpl in Hc.
  - rewrite bool_decide_eq_true_2 by eauto. by rewrite Hx.
  - rewrite decide_True by lia. rewrite bool_decide_eq_false_2 by lia.
    rewrite bool_decide_eq_true_2 by eauto. by rewrite Hx.
Qed.

Lemma getVersion_miss v f p s :
  to_cache v s -> converted s !! v = None ->
  getVersion v f p s =
    match p s with
    | (Ok prev, s1) =>
        (Ok (f (registry s1) prev (version s1)), snd (convert v f prev s1))
    | (Throw e, s1) => (Throw e, s1)
    end.
Proof.
  intros Hc Hx. unfold getVersion, bind, assertVersion, gets, ret, lift.
  assert (Hno : ¬ is_Some (converted s !! v)) by (rewrite Hx; by intros [? ?]).
  destruct v as [|n]; simpl in Hc.
  - rewrite bool_decide_eq_false_2 by done.
    destruct (p s) as [[prev|e] s1]; [|done].
    unfold convert; simpl. by rewrite lookup_insert_eq.
  - rewrite decide_True by lia. rewrite bool_decide_eq_false_2 by lia.
    rewrite bool_decide_eq_false_2 by done.
    destruct (p s) as [[prev|e] s1]; [|done].
    unfold convert; simpl. by rewrite lookup_insert_eq.
Qed.

(** *** The invariant *)

Lemma inv_new r magic meta : inv (new r magic meta).
Proof.
  split; simpl.
  - intros k x Hk. by rewrite lookup_empty in Hk.
  - constructor.
  - intros k. rewrite lookup_empty. split; [by intros ?%elem_of_nil|by intros [? ?]].
Qed.

(** Storing the expected value under a key that is not cached yet. *)
Lemma convert_inv v f prev s :
  inv s -> converted s !! v = None ->
  expected s v = Some (f (registry s) prev (version s)) ->
  inv (snd (convert v f prev s)).
Proof.
  intros [Hexp Hone Hran] Hnone Hval.
  assert (Hcore : same_core s (snd (convert v f prev s))) by (by repeat split).
  split.
  - intros k x. rewrite (same_core_expected _ _ _ Hcore). simpl.
    destruct (decide (v = k)) as [<-|Hne].
    + rewrite lookup_insert_eq. by intros [= <-].
    + rewrite lookup_insert_ne by done. apply Hexp.
  - simpl. apply NoDup_app. split; [done|]. split; [|apply NoDup_singleton].
    intros k Hk ->%list_elem_of_singleton.
    apply Hran in Hk. rewrite Hnone in Hk. by destruct Hk.
  - intros k. simpl. rewrite elem_of_app, list_elem_of_singleton, Hran.
    destruct (decide (v = k)) as [<-|Hne].
    + rewrite lookup_insert_eq. split; eauto.
    + rewrite lookup_insert_ne by done. split; [intros [?|?]; [done|congruence]|eauto].
Qed.

Lemma convert_core v f prev s : same_core s (snd (convert v f prev s)).
Proof. by repeat split. Qed.

Lemma convert_grows v f prev s :
  converted s !! v = None -> converted s ⊆ converted (snd (convert v f prev s)).
Proof. intros Hnone. simpl. by apply insert_subseteq. Qed.

(** *** Every getter is sound *)

(** The cases of [sound] in which the instance stays as it is: what is left
    to show is the outcome. *)
Ltac stays s :=
  eexists; exists s; split; [done|]; split; [done|];
  split; [apply same_core_refl|]; split; [apply keeps_above_refl|];
  split; [done|]; split.

Lemma sound_asV9 : sound 9 asV9.
Proof.
  intros s Hinv. unfold asV9, bind, assertVersion, lift, MetadataAll_as.
  destruct (decide (version s <= 9)) as [Hle|Hgt].
  - fold (version s). destruct (decide (version s = 9)) as [Heq|Hne].
    + stays s.
      * intros _. split; [|lia]. by rewrite <- Heq, migrated_same.
      * intros _. lia.
    + stays s; [intros ?; lia|simpl; discriminate].
  - stays s; [intros ?; lia|simpl; discriminate].
Qed.

Lemma sound_getVersion n f p :
  10 <= n <= 14 -> f = transform n -> sound (n - 1) p ->
  sound n (getVersion (ver n) f p).
Proof.
  intros Hn -> Hp s Hinv.
  destruct (Z.lt_trichotomy (version s) n) as [Hlt|[Heq|Hgt]].
  - (* an upgrade: the cache decides *)
    destruct (converted s !! ver n) as [x|] eqn:Hx.
    + rewrite (getVersion_hit _ _ _ _ x) by done.
      pose proof (inv_expected _ Hinv _ _ Hx) as Hexp. simpl in Hexp.
      case_decide as Hrange; [|done]. injection Hexp as <-.
      stays s; [|lia]. intros _. by split.
    + rewrite getVersion_miss by done.
      destruct (Hp s Hinv) as (r1 & s1 & -> & Hinv1 & Hcore1 & Hkeep1 & Hsub1 & Hok1 & Hdom1).
      assert (Hnone1 : converted s1 !! ver n = None).
      { destruct Hkeep1 as [_ Hk]. rewrite Hk by lia. done. }
      destruct r1 as [prev|e].
      * specialize (Hdom1 eq_refl).
        destruct (Hok1 Hdom1) as [[= ->] _].
        assert (Hval : transform n (registry s1) (migrated s (n - 1)) (version s1)
                       = migrated s n).
        { rewrite (same_core_version _ _ Hcore1).
          destruct Hcore1 as (-> & _). symmetry. by apply migrated_step. }
        cbv beta iota. rewrite Hval.
        eexists _, _. split; [done|]. split.
        { apply convert_inv; [done|done|]. rewrite Hval. simpl.
          rewrite (same_core_version _ _ Hcore1).
          rewrite decide_True by lia.
          by rewrite (same_core_migrated _ _ _ Hcore1). }
        split; [eapply same_core_trans; [done|apply convert_core]|].
        split.
        { destruct Hkeep1 as [Hl Hk]. split; simpl.
          - by rewrite lookup_insert_ne.
          - intros m Hm. rewrite lookup_insert_ne by (intros [=]; lia).
            apply Hk. lia. }
        split; [etrans; [done|by apply convert_grows]|].
        split; [|lia]. intros _. split; [done|]. intros _. simpl.
        by rewrite lookup_insert_eq, Hval.
      * exists (Throw e), s1. split; [done|]. split; [done|]. split; [done|].
        split.
        { destruct Hkeep1 as [Hl Hk]. split; [done|]. intros m Hm. apply Hk. lia. }
        split; [done|]. split; [|simpl; discriminate].
        intros Hrange. destruct (Hok1 ltac:(lia)) as [[=] _].
  - (* the source version itself *)
    rewrite getVersion_same by done.
    stays s; [|lia]. intros _. split; [|lia]. by rewrite <- Heq, migrated_same.
  - (* a downgrade *)
    rewrite getVersion_downgrade by done.
    stays s; [lia|simpl; discriminate].
Qed.

Lemma sound_asV10 : sound 10 asV10.
Proof. apply (sound_getVersion 10); [lia|done|exact sound_asV9]. Qed.

Lemma sound_asV11 : sound 11 asV11.
Proof. apply (sound_getVersion 11); [lia|done|exact sound_asV10]. Qed.

Lemma sound_asV12 : sound 12 asV12.
Proof. apply (sound_getVersion 12); [lia|done|exact sound_asV11]. Qed.

Lemma sound_asV13 : sound 13 asV13.
Proof. apply (sound_getVersion 13); [lia|done|exact sound_asV12]. Qed.

Lemma sound_asV14 : sound 14 asV14.
Proof. apply (sound_getVersion 14); [lia|done|exact sound_asV13]. Qed.

Lemma sound_asV n : 9 <= n <= 14 -> sound n (asV n).
Proof.
  intros Hn.
  assert (n = 9 \/ n = 10 \/ n = 11 \/ n = 12 \/ n = 13 \/ n = 14)
    as [->|[->|[->|[->|[->| ->]]]]] by lia.
  - exact sound_asV9.
  - exact sound_asV10.
  - exact sound_asV11.
  - exact sound_asV12.
  - exact sound_asV13.
  - exact sound_asV14.
Qed.

(** *** asLatest, toJSON and the accesses *)

Lemma asLatest_sound s :
  inv s ->
  exists r s',
    asLatest s = (r, s') /\ inv s' /\ same_core s s' /\
    (converted s ⊆ converted s') /\
    (9 <= version s <= 14 ->
       r = Ok (normalized s) /\ converted s' !! latest = Some (normalized s)) /\
    (is_ok r = true -> 9 <= version s <= 14).
Proof.
  intros Hinv. unfold asLatest.
  destruct (converted s !! latest) as [x|] eqn:Hx.
  - rewrite (getVersion_hit _ _ _ _ x) by done.
    pose proof (inv_expected _ Hinv _ _ Hx) as Hexp. simpl in Hexp.
    case_decide as Hrange; [|done]. injection Hexp as <-.
    exists (Ok (normalized s)), s. split; [done|]. split; [done|].
    split; [apply same_core_refl|]. split; [done|]. by split.
  - rewrite getVersion_miss by done.
    destruct (sound_asV14 s Hinv)
      as (r1 & s1 & -> & Hinv1 & Hcore1 & [Hkeep1 _] & Hsub1 & Hok1 & Hdom1).
    assert (Hnone1 : converted s1 !! latest = None) by congruence.
    destruct r1 as [prev|e].
    + specialize (Hdom1 eq_refl). destruct (Hok1 Hdom1) as [[= ->] _].
      assert (Hval : toLatest (registry s1) (migrated s 14) (version s1) = normalized s).
      { rewrite (same_core_version _ _ Hcore1). by destruct Hcore1 as (-> & _). }
      cbv beta iota. rewrite Hval.
      eexists _, _. split; [done|]. split.
      { apply convert_inv; [done|done|]. rewrite Hval. simpl.
        rewrite (same_core_version _ _ Hcore1). rewrite decide_True by done.
        unfold normalized. rewrite (same_core_version _ _ Hcore1).
        rewrite (same_core_migrated _ _ _ Hcore1). by destruct Hcore1 as (-> & _). }
      split; [eapply same_core_trans; [done|apply convert_core]|].
      split; [etrans; [done|by apply convert_grows]|].
      split; [|done]. intros _. split; [done|]. simpl.
      by rewrite lookup_insert_eq, Hval.
    + exists (Throw e), s1. split; [done|]. split; [done|]. split; [done|].
      split; [done|]. split; [|simpl; discriminate].
      intros Hrange. destruct (Hok1 Hrange) as [[=] _].
Qed.

(** toJSON serializes the instance that asLatest leaves, and nothing when
    asLatest throws. *)
Lemma toJSON_unfold s :
  toJSON s =
    match asLatest s with
    | (Ok _, s') => (Ok (Struct_toJSON (magicNumber s') (metadata s')), s')
    | (Throw e, s') => (Throw e, s')
    end.
Proof. reflexivity. Qed.

Lemma inv_after a s : inv s -> inv (after a s).
Proof.
  intros Hinv. destruct a as [name| |]; simpl.
  - assert (exists n, sound n (getter name)) as [n Hs].
    { destruct name; eexists; simpl;
        [exact sound_asV9|exact sound_asV10|exact sound_asV11
        |exact sound_asV12|exact sound_asV13|exact sound_asV14]. }
    by destruct (Hs s Hinv) as (r & s' & -> & ? & _).
  - by destruct (asLatest_sound s Hinv) as (r & s' & -> & ? & _).
  - rewrite toJSON_unfold.
    destruct (asLatest_sound s Hinv) as (r & s' & -> & ? & _).
    by destruct r.
Qed.

Lemma reachable_inv s : reachable s -> inv s.
Proof.
  induction 1 as [r magic meta|a s _ IH]; [apply inv_new|by apply inv_after].
Qed.

(** *** Step by step *)

Lemma stepwise_ok V (k : nat) s :
  inv s -> version s = V -> 9 <= V -> V + Z.of_nat k <= 14 ->
  exists s',
    stepwise V k s = (Ok (migrated s (V + Z.of_nat k)), s') /\
    inv s' /\ same_core s s'.
Proof.
  revert s. induction k as [|k IH]; intros s Hinv Hv HV Hk.
  - simpl. destruct (sound_asV V ltac:(lia) s Hinv)
      as (r & s' & Hrun & Hinv' & Hcore & _ & _ & Hok & _).
    destruct (Hok ltac:(lia)) as [-> _].
    exists s'. by rewrite Z.add_0_r.
  - cbn [stepwise]. unfold bind.
    destruct (IH s Hinv Hv HV ltac:(lia)) as (s1 & -> & Hinv1 & Hcore1).
    destruct (sound_asV (V + Z.of_nat (S k)) ltac:(lia) s1 Hinv1)
      as (r & s' & -> & Hinv' & Hcore' & _ & _ & Hok & _).
    pose proof (same_core_version _ _ Hcore1) as Hv1.
    destruct (Hok ltac:(lia)) as [-> _].
    exists s'. rewrite (same_core_migrated _ _ _ Hcore1).
    split; [done|]. split; [done|]. by eapply same_core_trans.
Qed.

(** *** The getters below and at the source version *)

Lemma asV9_same s : version s = 9 -> asV9 s = (Ok (inner (metadata s)), s).
Proof.
  intros Hv. unfold asV9, bind, assertVersion, lift, MetadataAll_as.
  rewrite decide_True by lia. by rewrite decide_True.
Qed.

Lemma asV9_downgrade s :
  9 < version s -> asV9 s = (Throw (CannotConvertMetadata (version s) 9), s).
Proof.
  intros Hv. unfold asV9, bind, assertVersion.
  by rewrite decide_False by lia.
Qed.

Lemma asV_same s n :
  9 <= n <= 14 -> version s = n -> asV n s = (Ok (inner (metadata s)), s).
Proof.
  intros Hn Hv.
  assert (n = 9 \/ n = 10 \/ n = 11 \/ n = 12 \/ n = 13 \/ n = 14)
    as [->|[->|[->|[->|[->| ->]]]]] by lia;
    [by apply asV9_same|by apply getVersion_same..].
Qed.

Lemma asV_downgrade s n :
  9 <= n <= 14 -> n < version s ->
  asV n s = (Throw (CannotConvertMetadata (version s) n), s).
Proof.
  intros Hn Hv.
  assert (n = 9 \/ n = 10 \/ n = 11 \/ n = 12 \/ n = 13 \/ n = 14)
    as [->|[->|[->|[->|[->| ->]]]]] by lia;
    [by apply asV9_downgrade|by apply getVersion_downgrade..].
Qed.

(** A value already in the cache is returned as it is, and nothing runs. *)
Lemma asV_cached s n x :
  10 <= n <= 14 -> version s < n -> converted s !! ver n = Some x ->
  asV n s = (Ok x, s).
Proof.
  intros Hn Hv Hx.
  assert (n = 10 \/ n = 11 \/ n = 12 \/ n = 13 \/ n = 14)
    as [->|[->|[->|[->| ->]]]] by lia; by apply getVersion_hit.
Qed.

(** this[`asV${n}`] is the getter of that name. *)
Lemma asV_names :
  asV 9 = asV9 /\ asV 10 = asV10 /\ asV 11 = asV11 /\
  asV 12 = asV12 /\ asV 13 = asV13 /\ asV 14 = asV14.
Proof. repeat split. Qed.

(** The name that #getVersion builds for this[asPrev] is the getter each of
    its callers passes. *)
Lemma asPrev_resolved :
  asV10 = getVersion (ver 10) toV10 (asV (asPrev (ver 10))) /\
  asV11 = getVersion (ver 11) toV11 (asV (asPrev (ver 11))) /\
  asV12 = getVersion (ver 12) toV12 (asV (asPrev (ver 12))) /\
  asV13 = getVersion (ver 13) toV13 (asV (asPrev (ver 13))) /\
  asV14 = getVersion (ver 14) toV14 (asV (asPrev (ver 14))) /\
  asLatest = getVersion latest toLatest (asV (asPrev latest)).
Proof. repeat split. Qed.

(** On an instance that satisfies the invariant, no getter hands out the
    undefined of a missing cache entry. *)
Lemma getVersion_defined s n :
  inv s -> 9 <= version s <= n -> n <= 14 ->
  exists x s', asV n s = (Ok x, s').
Proof.
  intros Hinv Hv Hn.
  destruct (sound_asV n ltac:(lia) s Hinv) as (r & s' & -> & _ & _ & _ & _ & Hok & _).
  destruct (Hok Hv) as [-> _]. eauto.
Qed.

(** *** The cache has no gap *)

(** The number in the name of a getter. *)
Lemma getter_asV (name : MetaAsX) :
  exists n, 9 <= n <= 14 /\ getter name = asV n.
Proof.
  destruct name;
    [exists 9|exists 10|exists 11|exists 12|exists 13|exists 14]; by split.
Qed.

(** The instance after an access, by what the access runs. *)
Lemma after_Export s : after Export s = after GetLatest s.
Proof.
  simpl. rewrite toJSON_unfold. by destruct (asLatest s) as [[l|e] s'].
Qed.

Lemma no_gap_new r magic meta : no_gap (new r magic meta).
Proof.
  split; simpl.
  - intros n [x Hx]. by rewrite lookup_empty in Hx.
  - intros [x Hx]. by rewrite lookup_empty in Hx.
Qed.

Lemma fills_asV9 : fills 9 asV9.
Proof.
  intros s Hinv Hgap.
  destruct (sound_asV9 s Hinv) as (r & s' & Hrun & _ & _ & _ & _ & _ & Hdom).
  assert (Hsame : (asV9 s).2 = s).
  { unfold asV9, bind, assertVersion, lift.
    by destruct (decide (version s <= 9)). }
  rewrite Hsame. split; [done|]. rewrite Hrun. simpl.
  intros Hok m Hm. specialize (Hdom Hok). lia.
Qed.

Lemma fills_getVersion n f (p : M MetaMapped) :
  10 <= n <= 14 -> f = transform n -> sound (n - 1) p -> fills (n - 1) p ->
  fills n (getVersion (ver n) f p).
Proof.
  intros Hn -> Hsound Hfills s Hinv Hgap.
  destruct (Z.lt_trichotomy (version s) n) as [Hlt|[Heq|Hgt]].
  - destruct (converted s !! ver n) as [x|] eqn:Hx.
    + rewrite (getVersion_hit _ _ _ _ x) by done. simpl. split; [done|].
      intros _ m Hm. destruct Hgap as [Hgap _]. by apply (Hgap n).
    + rewrite getVersion_miss by done.
      destruct (Hfills s Hinv Hgap) as [Hgap1 Hfilled].
      destruct (Hsound s Hinv)
        as (r1 & s1 & Hrun & _ & Hcore1 & _ & _ & _ & _).
      rewrite Hrun in *. simpl in Hgap1, Hfilled.
      pose proof (same_core_version _ _ Hcore1) as Hv1.
      destruct r1 as [prev|e]; [|by split].
      specialize (Hfilled eq_refl). cbv beta iota. simpl.
      assert (Hall : forall m, version s < m <= n ->
                is_Some (<[ver n := transform n (registry s1) prev (version s1)]>
                           (converted s1) !! ver m)).
      { intros m Hm. destruct (decide (m = n)) as [->|Hne].
        - rewrite lookup_insert_eq. eauto.
        - rewrite lookup_insert_ne by congruence. apply Hfilled. lia. }
      split; [|by intros _].
      destruct Hgap1 as [Hver Hlatest]. split.
      * unfold version in *. simpl. intros n' Hn' m Hm.
        destruct (decide (m <= n)) as [Hle|Hgt]; [apply Hall; lia|].
        rewrite lookup_insert_ne by (intros [=]; lia).
        rewrite lookup_insert_ne in Hn' by (intros [=]; lia).
        apply (Hver n'); [done|lia].
      * unfold version in *. simpl. rewrite lookup_insert_ne by done.
        intros Hl m Hm.
        destruct (decide (m <= n)) as [Hle|Hgt]; [apply Hall; lia|].
        rewrite lookup_insert_ne by (intros [=]; lia).
        apply Hlatest; [done|lia].
  - rewrite getVersion_same by done. simpl. split; [done|]. intros _ m Hm. lia.
  - rewrite getVersion_downgrade by done. simpl. by split.
Qed.

Lemma fills_asV n : 9 <= n <= 14 -> fills n (asV n).
Proof.
  intros Hn.
  pose proof fills_asV9 as H9.
  pose proof (fills_getVersion 10 toV10 asV9 ltac:(lia) eq_refl sound_asV9 H9) as H10.
  pose proof (fills_getVersion 11 toV11 asV10 ltac:(lia) eq_refl sound_asV10 H10) as H11.
  pose proof (fills_getVersion 12 toV12 asV11 ltac:(lia) eq_refl sound_asV11 H11) as H12.
  pose proof (fills_getVersion 13 toV13 asV12 ltac:(lia) eq_refl sound_asV12 H12) as H13.
  pose proof (fills_getVersion 14 toV14 asV13 ltac:(lia) eq_refl sound_asV13 H13) as H14.
  assert (n = 9 \/ n = 10 \/ n = 11 \/ n = 12 \/ n = 13 \/ n = 14)
    as [->|[->|[->|[->|[->| ->]]]]] by lia; done.
Qed.

Lemma asLatest_no_gap s : inv s -> no_gap s -> no_gap (asLatest s).2.
Proof.
  intros Hinv Hgap. unfold asLatest.
  destruct (converted s !! latest) as [x|] eqn:Hx.
  - by rewrite (getVersion_hit _ _ _ _ x).
  - rewrite getVersion_miss by done.
    destruct (fills_asV 14 ltac:(lia) s Hinv Hgap) as [Hgap1 Hfilled].
    destruct (sound_asV14 s Hinv) as (r1 & s1 & Hrun & _ & Hcore1 & _).
    change (asV 14 s) with (asV14 s) in *. rewrite Hrun in *.
    simpl in Hgap1, Hfilled.
    pose proof (same_core_version _ _ Hcore1) as Hv1.
    destruct r1 as [prev|e]; [|done].
    specialize (Hfilled eq_refl). cbv beta iota. simpl.
    destruct Hgap1 as [Hver _]. split.
    + unfold version in *. simpl. intros n' Hn' m Hm.
      rewrite lookup_insert_ne by done. rewrite lookup_insert_ne in Hn' by done.
      by apply (Hver n').
    + unfold version in *. simpl. intros _ m Hm.
      rewrite lookup_insert_ne by done. apply Hfilled. lia.
Qed.

Lemma reachable_no_gap s : reachable s -> no_gap s.
Proof.
  induction 1 as [r magic meta|a s Hreach IH]; [apply no_gap_new|].
  pose proof (reachable_inv _ Hreach) as Hinv.
  destruct a as [name| |].
  - simpl. destruct (getter_asV name) as (n & Hn & ->).
    by apply (fills_asV n Hn s Hinv IH).
  - by apply asLatest_no_gap.
  - rewrite after_Export. by apply asLatest_no_gap.
Qed.

(** After asLatest has returned the cache is full: it holds the migrated
    value of every version above the source version, the normalized value
    under 'latest', and nothing else. *)
Lemma asLatest_full s :
  reachable s -> 9 <= version s <= 14 ->
  forall k, converted (asLatest s).2 !! k = expected s k.
Proof.
  intros Hreach HV k. pose proof (reachable_inv _ Hreach) as Hinv.
  pose proof (asLatest_no_gap s Hinv (reachable_no_gap s Hreach)) as [_ Hgap].
  destruct (asLatest_sound s Hinv) as (r & s' & Hrun & Hinv' & Hcore & _ & Hok & _).
  rewrite Hrun in *. simpl in *. destruct (Hok HV) as [_ Hcached].
  pose proof (same_core_version _ _ Hcore) as Hv.
  rewrite <- (same_core_expected _ _ k Hcore).
  destruct (converted s' !! k) as [x|] eqn:Hk.
  - symmetry. by apply (inv_expected _ Hinv').
  - destruct k as [|m]; [congruence|]. simpl. case_decide as Hm; [|done].
    destruct (Hgap ltac:(eauto) m ltac:(lia)) as [x Hx]. congruence.
Qed.

(** *** The claims *)

(** C1. On an instance of source version V (9 or above) and for a target N
    with V < N <= 14, the getter asVN returns the embedded value taken
    through the one-step transforms V -> V+1 -> ... -> N, and leaves it in
    the cache under N. Asking again returns the same value and leaves the
    instance, and with it the record of the transforms that ran, as it is.
    No transform ran twice on the instance, before or after. Going step by
    step, asV(V), asV(V+1), ..., asVN, ends with the same value, again with
    no transform run twice. *)
Theorem asVN_chain s N :
  reachable s -> 9 <= version s -> version s < N <= 14 ->
  let x := chain (registry s) (version s) (inner (metadata s))
             (Z.to_nat (N - version s)) in
  exists s1 s2,
    asV N s = (Ok x, s1) /\
    converted s1 !! ver N = Some x /\
    asV N s1 = (Ok x, s1) /\
    NoDup (ran s) /\ NoDup (ran s1) /\
    stepwise (version s) (Z.to_nat (N - version s)) s = (Ok x, s2) /\
    NoDup (ran s2).
Proof.
  intros Hreach HV HN x.
  pose proof (reachable_inv _ Hreach) as Hinv.
  destruct (sound_asV N ltac:(lia) s Hinv)
    as (r & s1 & Hrun & Hinv1 & Hcore1 & _ & _ & Hok & _).
  destruct (Hok ltac:(lia)) as [-> Hcached]. specialize (Hcached ltac:(lia)).
  destruct (stepwise_ok (version s) (Z.to_nat (N - version s)) s Hinv eq_refl HV
              ltac:(lia)) as (s2 & Hstep & Hinv2 & _).
  replace (version s + Z.of_nat (Z.to_nat (N - version s))) with N in Hstep by lia.
  exists s1, s2. fold (migrated s N) in x. subst x.
  split; [done|]. split; [done|]. split.
  { apply asV_cached; [lia| |done]. rewrite (same_core_version _ _ Hcore1). lia. }
  split; [apply Hinv|]. split; [apply Hinv1|]. split; [done|apply Hinv2].
Qed.

(** C3. For a numbered target N in 9 .. 14: on an instance whose source
    version is above N the getter asVN throws the version error and leaves
    the instance as it is; on an instance whose source version is N it
    returns the embedded value, whatever the cache holds, and leaves cache
    and record of transforms as they are. *)
Theorem asVN_below_or_same s N :
  9 <= N <= 14 ->
  (N < version s ->
     asV N s = (Throw (CannotConvertMetadata (version s) N), s)) /\
  (N = version s ->
     asV N s = (Ok (inner (metadata s)), s)).
Proof.
  intros HN. split; intros HV.
  - by apply asV_downgrade.
  - by apply asV_same.
Qed.

(** C4. On an instance of source version 9 .. 14, the newest included,
    asLatest returns toLatest applied to what asV14 returns, and that value
    is in the cache under 'latest' afterwards, its transform on record. At
    source version 14 what asV14 returns is the embedded value. When the
    cache had no 'latest' entry, this call ran toLatest, after whatever
    asV14 ran, and stored the result. *)
Theorem asLatest_normalizes s :
  reachable s -> 9 <= version s <= 14 ->
  exists x14 s14 s',
    asV14 s = (Ok x14, s14) /\
    (version s = 14 -> x14 = inner (metadata s)) /\
    asLatest s = (Ok (toLatest (registry s) x14 (version s)), s') /\
    converted s' !! latest = Some (toLatest (registry s) x14 (version s)) /\
    latest ∈ ran s' /\
    (converted s !! latest = None ->
       ran s' = ran s14 ++ [latest] /\
       converted s' =
         <[latest := toLatest (registry s) x14 (version s)]> (converted s14)).
Proof.
  intros Hreach HV. pose proof (reachable_inv _ Hreach) as Hinv.
  destruct (sound_asV14 s Hinv)
    as (r14 & s14 & Hrun14 & Hinv14 & Hcore14 & [Hkeep _] & _ & Hok14 & _).
  destruct (Hok14 HV) as [-> _].
  destruct (asLatest_sound s Hinv) as (r & s' & Hrun & Hinv' & Hcore & _ & Hok & _).
  destruct (Hok HV) as [-> Hcached].
  exists (migrated s 14), s14, s'. split; [done|]. split.
  { intros Hv. by rewrite <- Hv, migrated_same. }
  split; [done|]. split; [done|]. split.
  { apply (inv_ran _ Hinv'). eauto. }
  intros Hnone. unfold asLatest in Hrun.
  rewrite getVersion_miss, Hrun14 in Hrun by done.
  injection Hrun as _ <-. simpl.
  rewrite (same_core_version _ _ Hcore14). by destruct Hcore14 as (-> & _).
Qed.


(** C10, as amended. Reading asCallsOnly off an instance of source version
    9 .. 14 builds an instance at a reference that named nothing before:
    its cache is empty and nothing ran on it, its magicNumber is that of the
    original and its metadata is at version 14, around toCallsOnly of the
    normalized value. Every other object is as it was. The original keeps
    its registry, magicNumber and metadata and every cache entry it had.
    Its cache afterwards holds the normalized value under 'latest' and, for
    every version above its source version up to 14, the value migrated to
    that version, whether it was cached before or not; it holds nothing
    else. Reading asCallsOnly again builds one more instance at the next
    reference, leaves the first one alone and changes the original no
    further. *)
Theorem asCallsOnly_builds_anew (h : list MetadataVersioned) (this : nat) o :
  h !! this = Some o -> reachable o -> 9 <= version o <= 14 ->
  let made := new (registry o) (magicNumber o)
                (mkMetadataAll LATEST_VERSION (toCallsOnly (registry o) (normalized o))) in
  exists o' h1 h2,
    asCallsOnly this h = (Ok (length h), h1) /\
    h !! length h = None /\ h1 !! length h = Some made /\
    converted made = ∅ /\ ran made = [] /\
    magicNumber made = magicNumber o /\ version made = 14 /\
    h1 !! this = Some o' /\ same_core o o' /\
    (converted o ⊆ converted o') /\
    converted o' !! latest = Some (normalized o) /\
    (forall m, version o < m <= 14 ->
       converted o' !! ver m = Some (migrated o m)) /\
    (forall k, is_Some (converted o' !! k) ->
       k = latest \/ exists m, k = ver m /\ version o < m <= 14) /\
    (forall k, converted o' !! k = expected o k) /\
    (forall r, r <> this -> (r < length h)%nat -> h1 !! r = h !! r) /\
    asCallsOnly this h1 = (Ok (S (length h)), h2) /\
    h2 !! length h = Some made /\ h2 !! S (length h) = Some made /\
    h2 !! this = Some o'.
Proof.
  intros Hthis Hreach HV made. pose proof (reachable_inv _ Hreach) as Hinv.
  pose proof (lookup_lt_Some _ _ _ Hthis) as Hlt.
  destruct (asLatest_sound o Hinv) as (r & o' & Hrun & Hinv' & Hcore & Hsub & Hok & _).
  destruct (Hok HV) as [-> Hcached].
  assert (Hmade : new (registry o') (magicNumber o')
                    (createType_MetadataAll (toCallsOnly (registry o') (normalized o))
                       LATEST_VERSION) = made).
  { unfold made. by destruct Hcore as (-> & -> & _). }
  assert (Hrun' : asLatest o' = (Ok (normalized o), o')).
  { by apply getVersion_hit. }
  set (h1 := <[this := o']> h ++ [made]).
  assert (Hlen : length (<[this := o']> h) = length h) by apply length_insert.
  assert (Hthis1 : h1 !! this = Some o').
  { unfold h1. rewrite lookup_app_l by lia. by apply list_lookup_insert_eq. }
  assert (Hnew1 : h1 !! length h = Some made).
  { unfold h1. rewrite <- Hlen. by apply list_lookup_middle. }
  assert (Hid : <[this := o']> h1 = h1) by (by apply list_insert_id).
  assert (Hlen1 : length h1 = S (length h)).
  { unfold h1. rewrite length_app, Hlen. simpl. lia. }
  exists o', h1, (h1 ++ [made]).
  split. { unfold asCallsOnly. by rewrite Hthis, Hrun, Hmade, Hlen. }
  split; [by apply lookup_ge_None_2|]. split; [done|].
  split; [done|]. split; [done|]. split; [done|]. split; [done|].
  split; [done|]. split; [done|]. split; [done|]. split; [done|].
  assert (Hfull : forall k, converted o' !! k = expected o k).
  { intros k. rewrite <- (asLatest_full o Hreach HV k). by rewrite Hrun. }
  split.
  { intros m Hm. rewrite Hfull. simpl. by rewrite decide_True by lia. }
  split.
  { intros k [x Hk]. rewrite Hfull in Hk. destruct k as [|m]; [by left|].
    right. exists m. split; [done|]. simpl in Hk. case_decide; [lia|done]. }
  split; [done|].
  split.
  { intros r Hne Hr. unfold h1. rewrite lookup_app_l by lia.
    by apply list_lookup_insert_ne. }
  split. { unfold asCallsOnly. by rewrite Hthis1, Hrun', Hmade, Hid, Hlen1. }
  split; [rewrite lookup_app_l by lia; done|].
  split; [rewrite <- Hlen1; by apply list_lookup_middle|].
  rewrite lookup_app_l by lia. done.
Qed.

End Facts.

End MetadataFacts.
(** ** Facts about StorageKey *)

Module StorageFacts.

Import Storage.

Section Facts.

Context `{Imports}.

Implicit Types (registry : Registry) (value : U8a) (offset : nat).
Implicit Types (entries : list (StorageHasher * option SiLookupTypeId)).

(** *** The table *)

Lemma HASHER_MAP_lookup h :
  HASHER_MAP !! hasher_type h = Some (hasher_kind_table h).
Proof. destruct h; reflexivity. Qed.

Lemma hashLen_bound h : (hasher_kind_table h).1 <= 32.
Proof. destruct h; simpl; lia. Qed.

(** *** One round of the reduce *)

Lemma step_opaque registry value offset result h t :
  (hasher_kind_table h).2 = false ->
  decodeHashers_step registry value (offset, result) (h, t) =
    Ok (offset + (hasher_kind_table h).1,
        result ++ [Raw (subarray value offset (offset + (hasher_kind_table h).1))]).
Proof.
  intros Hno. unfold decodeHashers_step. rewrite HASHER_MAP_lookup.
  destruct (hasher_kind_table h) as [hashLen canDecode]; simpl in *; subst.
  unfold createType. rewrite decide_True by done. simpl.
  by rewrite Nat.add_0_r.
Qed.

Lemma step_decodable registry value offset result h t :
  (hasher_kind_table h).2 = true ->
  decodeHashers_step registry value (offset, result) (h, t) =
    match createType registry (createLookupType registry t)
            (subarray_from value (offset + (hasher_kind_table h).1)) with
    | Ok decoded =>
        Ok (offset + (hasher_kind_table h).1 + encodedLength decoded,
            result ++ [decoded])
    | Throw e => Throw e
    end.
Proof.
  intros Hyes. unfold decodeHashers_step. rewrite HASHER_MAP_lookup.
  destruct (hasher_kind_table h) as [hashLen canDecode]; simpl in *; subst.
  by destruct (createType _ _ _).
Qed.

Lemma subarray_length value offset hashLen :
  offset + hashLen <= length value ->
  length (subarray value offset (offset + hashLen)) = hashLen.
Proof.
  intros Hfits. unfold subarray. rewrite length_take, length_drop. lia.
Qed.

Lemma subarray_short value offset hashLen :
  length (subarray value offset (offset + hashLen)) =
    hashLen `min` (length value - offset).
Proof. unfold subarray. rewrite length_take, length_drop. lia. Qed.

(** *** The reduce and the threading of the offset *)

Lemma reduce_throw registry value entries e :
  fold_left (decodeHashers_round registry value) entries (Throw e) = Throw e.
Proof. induction entries as [|entry entries IH]; [done|apply IH]. Qed.

Lemma reduce_cons registry value entry entries acc :
  fold_left (decodeHashers_round registry value) (entry :: entries) (Ok acc) =
    fold_left (decodeHashers_round registry value) entries
      (decodeHashers_step registry value acc entry).
Proof. reflexivity. Qed.

Lemma reduce_snoc registry value entries entry :
  decodeHashers_reduce registry value (entries ++ [entry]) =
    decodeHashers_reduce registry value entries ≫= fun a =>
      decodeHashers_step registry value a entry.
Proof. unfold decodeHashers_reduce. by rewrite fold_left_app. Qed.

Lemma threads_reduce registry value offset entries args offset' :
  threads registry value offset entries args offset' ->
  forall result,
    fold_left (decodeHashers_round registry value) entries (Ok (offset, result)) =
      Ok (offset', result ++ args).
Proof.
  induction 1 as [offset|offset h t rest args offset' Hno _ IH
                 |offset h t rest decoded args offset' Hyes Hdec _ IH];
    intros result.
  - by rewrite app_nil_r.
  - rewrite reduce_cons, step_opaque by done.
    rewrite IH. by rewrite <- app_assoc.
  - rewrite reduce_cons, step_decodable, Hdec by done.
    rewrite IH. by rewrite <- app_assoc.
Qed.

Lemma reduce_threads registry value entries :
  forall offset result offset' out,
    fold_left (decodeHashers_round registry value) entries (Ok (offset, result))
      = Ok (offset', out) ->
    exists args, out = result ++ args /\
                 threads registry value offset entries args offset'.
Proof.
  induction entries as [|[h t] rest IH]; intros offset result offset' out.
  - intros [= <- <-]. exists []. split; [by rewrite app_nil_r|constructor].
  - rewrite reduce_cons.
    destruct (hasher_kind_table h).2 eqn:Hkind.
    + rewrite step_decodable by done.
      destruct (createType _ _ _) as [decoded|e] eqn:Hdec.
      * intros (args & -> & Hrest)%IH. exists (decoded :: args).
        split; [by rewrite <- app_assoc|]. by eapply threads_decodable.
      * by rewrite reduce_throw.
    + rewrite step_opaque by done.
      intros (args & -> & Hrest)%IH. eexists (_ :: args).
      split; [by rewrite <- app_assoc|]. by apply threads_opaque.
Qed.

Lemma threads_offset registry value offset entries args offset' :
  threads registry value offset entries args offset' ->
  offset <= offset' /\ length args = length entries.
Proof. induction 1; simpl; lia. Qed.

Lemma reduce_offset registry value entries offset result :
  decodeHashers_reduce registry value entries = Ok (offset, result) ->
  32 <= offset /\ length result = length entries.
Proof.
  intros (args & -> & Hthreads)%reduce_threads.
  apply threads_offset in Hthreads. simpl. lia.
Qed.

(** *** Pairing hashers with key types *)

Lemma pair_hashers_length hs (keys : list SiLookupTypeId) :
  length (pair_hashers hs keys) = length hs.
Proof. apply length_imap. Qed.

Lemma pair_hashers_lookup hs (keys : list SiLookupTypeId) i h :
  hs !! i = Some h -> pair_hashers hs keys !! i = Some (h, keys !! i).
Proof. intros Hh. unfold pair_hashers. by rewrite list_lookup_imap, Hh. Qed.

Lemma pair_hashers_zip hs (keys : list SiLookupTypeId) :
  length keys = length hs -> pair_hashers hs keys = zip hs (Some <$> keys).
Proof.
  unfold pair_hashers. revert keys.
  induction hs as [|h hs IH]; intros [|k keys] [=]; [done|].
  simpl. f_equal. by apply IH.
Qed.

(** *** setMeta and the constructor when the decoding throws *)

Lemma setMeta_decode_failure registry m sec meth this t e :
  unwrapStorageType registry (type m) false = Ok t ->
  decodeArgsFromMeta registry (content this) (Some m) = Throw e ->
  setMeta registry (Some m) sec meth this =
    (Ok tt,
     mkStorageKey (content this) (_args this) (Some m) t
       (or_else meth (_method this)) (or_else sec (_section this))).
Proof.
  intros Ht Hdec. unfold setMeta, toU8a_bare. rewrite Ht.
  cbn [content _args _meta _outputType _method _section]. by rewrite Hdec.
Qed.

Lemma setMeta_decoded registry m sec meth this t a :
  unwrapStorageType registry (type m) false = Ok t ->
  decodeArgsFromMeta registry (content this) (Some m) = Ok a ->
  setMeta registry (Some m) sec meth this =
    (Ok tt,
     mkStorageKey (content this) (Some a) (Some m) t
       (or_else meth (_method this)) (or_else sec (_section this))).
Proof.
  intros Ht Hdec. unfold setMeta, toU8a_bare. rewrite Ht.
  cbn [content _args _meta _outputType _method _section]. by rewrite Hdec.
Qed.

Lemma setMeta_no_meta registry sec meth this :
  setMeta registry None sec meth this =
    (Ok tt,
     mkStorageKey (content this) (Some []) None (_outputType this)
       (or_else meth (_method this)) (or_else sec (_section this))).
Proof. reflexivity. Qed.

(** The constructor on an input whose arguments cannot be decoded: it
    returns, with the bytes, the descriptor, the method and the section, and
    with no arguments assigned. *)
Lemma new_decode_failure registry input override d bytes t0 m t e :
  decodeStorageKey input = Ok d ->
  Bytes_decode registry (d_key d) = Ok bytes ->
  getType registry input = Ok t0 ->
  getMeta input = Some m ->
  unwrapStorageType registry (type m) false = Ok t ->
  decodeArgsFromMeta registry bytes (Some m) = Throw e ->
  new registry input override =
    Ok (mkStorageKey bytes None (Some m) t
          (or_else (or_else (o_method override) (d_method d)) None)
          (or_else (or_else (o_section override) (d_section d)) None)).
Proof.
  intros Hd Hbytes Ht0 Hm Ht Hdec. unfold new.
  rewrite Hd. cbn [mbind outcome_bind]. rewrite Hbytes. cbn [mbind outcome_bind].
  rewrite Ht0. cbn [mbind outcome_bind]. rewrite Hm.
  by rewrite (setMeta_decode_failure _ _ _ _ _ t e).
Qed.

(** *** The claims *)

(** C2, as amended. The reduce of decodeHashers starts at offset 32 with no
    argument, and the arguments it returns are exactly those that threading
    one offset from 32 through the hashers in their order yields. After any
    number of hashers the offset is 32 or more and there is one argument per
    hasher. The next hasher, when it is opaque, adds the raw value made of
    the key's bytes from the offset to the offset plus its hash length and
    moves the offset on by its hash length; that raw value has the hash
    length when the key reaches that far, and in general as many bytes as
    the key has left, up to the hash length. When the hasher is decodable,
    the declared type is decoded from the bytes after the offset plus the
    hash length, the decoded value is added and the offset moves on by the
    hash length plus the encodedLength of the value; a decoding that throws
    ends the reduce with that throw. *)
Theorem decodeHashers_threads_offset registry value :
  decodeHashers_reduce registry value [] = Ok (32, []) /\
  (forall entries args,
     decodeHashers registry value entries = Ok args <->
     exists offset', threads registry value 32 entries args offset') /\
  (forall entries offset result,
     decodeHashers_reduce registry value entries = Ok (offset, result) ->
     32 <= offset /\ length result = length entries /\
     forall h t,
       let hashLen := (hasher_kind_table h).1 in
       let raw := subarray value offset (offset + hashLen) in
       let rest := subarray_from value (offset + hashLen) in
       ((hasher_kind_table h).2 = false ->
          decodeHashers_reduce registry value (entries ++ [(h, t)]) =
            Ok (offset + hashLen, result ++ [Raw raw]) /\
          length raw = hashLen `min` (length value - offset) /\
          (offset + hashLen <= length value -> length raw = hashLen)) /\
       ((hasher_kind_table h).2 = true ->
          (forall decoded,
             createType registry (createLookupType registry t) rest = Ok decoded ->
             decodeHashers_reduce registry value (entries ++ [(h, t)]) =
               Ok (offset + hashLen + encodedLength decoded, result ++ [decoded])) /\
          (forall e,
             createType registry (createLookupType registry t) rest = Throw e ->
             decodeHashers_reduce registry value (entries ++ [(h, t)]) = Throw e))).
Proof.
  split; [done|]. split.
  - intros entries args. unfold decodeHashers, decodeHashers_reduce. split.
    + destruct (fold_left _ _ _) as [[offset' out]|e] eqn:Hfold; [|done].
      intros [= <-]. apply reduce_threads in Hfold as (args & -> & Hthreads).
      by exists offset'.
    + intros [offset' Hthreads]. by rewrite (threads_reduce _ _ _ _ _ _ Hthreads []).
  - intros entries offset result Hreduce.
    destruct (reduce_offset _ _ _ _ _ Hreduce) as [Hoff Hlen].
    split; [done|]. split; [done|]. intros h t hashLen raw rest. split.
    + intros Hno. rewrite reduce_snoc, Hreduce. split.
      * by apply step_opaque.
      * split; [apply subarray_short|apply subarray_length].
    + intros Hyes. split.
      * intros decoded Hdec. rewrite reduce_snoc, Hreduce.
        change (decodeHashers_step registry value (offset, result) (h, t) =
                Ok (offset + hashLen + encodedLength decoded, result ++ [decoded])).
        rewrite step_decodable by done. fold hashLen rest. by rewrite Hdec.
      * intros e Hdec. rewrite reduce_snoc, Hreduce.
        change (decodeHashers_step registry value (offset, result) (h, t) = Throw e).
        rewrite step_decodable by done. fold hashLen rest. by rewrite Hdec.
Qed.

(** C5. An input that carries a descriptor whose output type can be named
    and whose arguments cannot be decoded from the key, whatever it is that
    throws in decodeArgsFromMeta. The constructor returns: the throw does
    not leave it, and the key has its bytes, its descriptor, its method and
    its section. Its arguments are not the empty list: nothing was assigned
    to _args, they are undefined, and toHuman, which reads their length,
    throws. setMeta with such a descriptor on a key of these bytes returns
    as well and keeps bytes, method and section, and leaves the arguments
    the key had, decoded for whatever descriptor it had before. *)
Theorem failed_decode_leaves_args_unassigned
    registry input override d bytes m t e :
  decodeStorageKey input = Ok d ->
  Bytes_decode registry (d_key d) = Ok bytes ->
  getMeta input = Some m ->
  unwrapStorageType registry (type m) false = Ok t ->
  decodeArgsFromMeta registry bytes (Some m) = Throw e ->
  (exists k,
     new registry input override = Ok k /\
     content k = bytes /\ meta k = Some m /\ outputType k = t /\
     method k = or_else (or_else (o_method override) (d_method d)) None /\
     section k = or_else (or_else (o_section override) (d_section d)) None /\
     args k = None /\ args k <> Some [] /\
     toHuman k = Throw (TypeError "length of undefined")) /\
  (forall this sec meth,
     content this = bytes ->
     exists k,
       setMeta registry (Some m) sec meth this = (Ok tt, k) /\
       content k = bytes /\ meta k = Some m /\
       method k = or_else meth (method this) /\
       section k = or_else sec (section this) /\
       args k = args this /\
       (forall a, args this = Some a -> a <> [] -> args k <> Some [])).
Proof.
  intros Hd Hbytes Hm Ht Hdec. split.
  - assert (Ht0 : exists t0, getType registry input = Ok t0).
    { destruct input as [| | |k0|fn|fn params|]; simpl in Hm; try done.
      - by eexists.
      - simpl. rewrite Hm. by eexists.
      - simpl. rewrite Hm. by eexists. }
    destruct Ht0 as [t0 Ht0].
    rewrite (new_decode_failure _ _ _ _ _ _ _ _ _ Hd Hbytes Ht0 Hm Ht Hdec).
    eexists. split; [done|]. by repeat split.
  - intros this sec meth <-.
    rewrite (setMeta_decode_failure _ _ _ _ _ _ _ Ht Hdec).
    eexists. split; [done|]. unfold args, method, section, meta. simpl.
    split; [done|]. split; [done|]. split; [done|]. split; [done|].
    split; [done|]. intros a -> Ha [= ->]. done.
Qed.

(** C6. HASHER_MAP maps every hasher kind to the pair of the table:
    Identity to (0, yes), Twox64Concat to (8, yes), Blake2_128Concat to
    (16, yes), Twox128 and Blake2_128 to (16, no), Twox256 and Blake2_256 to
    (32, no); it has no other key; and a kind is decodable exactly when its
    name ends in Concat or is Identity. *)
Theorem HASHER_MAP_table :
  HASHER_MAP !! "Identity" = Some (0, true) /\
  HASHER_MAP !! "Twox64Concat" = Some (8, true) /\
  HASHER_MAP !! "Blake2_128Concat" = Some (16, true) /\
  HASHER_MAP !! "Twox128" = Some (16, false) /\
  HASHER_MAP !! "Blake2_128" = Some (16, false) /\
  HASHER_MAP !! "Twox256" = Some (32, false) /\
  HASHER_MAP !! "Blake2_256" = Some (32, false) /\
  (forall h, HASHER_MAP !! hasher_type h = Some (hasher_kind_table h)) /\
  (forall name, is_Some (HASHER_MAP !! name) <-> exists h, name = hasher_type h) /\
  (forall h hashLen canDecode,
     HASHER_MAP !! hasher_type h = Some (hashLen, canDecode) ->
     canDecode =
       ends_with "Concat" (hasher_type h) || String.eqb (hasher_type h) "Identity").
Proof.
  do 7 (split; [reflexivity|]).
  split; [apply HASHER_MAP_lookup|]. split.
  - intros name. split.
    + intros [entry Hentry]. unfold HASHER_MAP in Hentry.
      apply elem_of_list_to_map_2 in Hentry.
      repeat (apply elem_of_cons in Hentry as [[= -> _]|Hentry];
              [by (exists Blake2_128 + exists Blake2_128Concat + exists Blake2_256
                   + exists Identity + exists Twox128 + exists Twox256
                   + exists Twox64Concat)|]).
      by apply elem_of_nil in Hentry.
    + intros [h ->]. rewrite HASHER_MAP_lookup. eauto.
  - intros h hashLen canDecode. rewrite HASHER_MAP_lookup.
    destruct h; by intros [= <- <-].
Qed.

(** C7. Without a descriptor, and with the descriptor of a plain entry,
    decodeArgsFromMeta returns the empty list, and so setMeta leaves the key
    with an empty list of arguments. For a map entry with more than one
    hasher the key type is looked up as a tuple and the hashers are decoded
    paired with its elements: the hasher at each position with the tuple's
    element at that position, which for a tuple of as many elements as
    there are hashers is the zip of the two lists. *)
Theorem decodeArgsFromMeta_shapes registry value :
  decodeArgsFromMeta registry value None = Ok [] /\
  (forall t, decodeArgsFromMeta registry value (Some (mkMeta (Plain t))) = Ok []) /\
  (forall sec meth this,
     args (setMeta registry None sec meth this).2 = Some []) /\
  (forall t name sec meth this,
     getSiName registry t = Ok name ->
     args (setMeta registry (Some (mkMeta (Plain t))) sec meth this).2 = Some []) /\
  (forall map keys,
     1 < length (hashers map) ->
     getSiType_asTuple registry (key map) = Ok keys ->
     decodeArgsFromMeta registry value (Some (mkMeta (Map map))) =
       decodeHashers registry value (pair_hashers (hashers map) keys) /\
     length (pair_hashers (hashers map) keys) = length (hashers map) /\
     (forall i h, hashers map !! i = Some h ->
        pair_hashers (hashers map) keys !! i = Some (h, keys !! i)) /\
     (length keys = length (hashers map) ->
        pair_hashers (hashers map) keys = zip (hashers map) (Some <$> keys))).
Proof.
  split; [done|]. split; [done|]. split; [done|]. split.
  - intros t name sec meth this Hname.
    unfold setMeta, unwrapStorageType. simpl. by rewrite Hname.
  - intros map keys Hmany Htuple. split.
    + unfold decodeArgsFromMeta. simpl.
      rewrite decide_False by lia. by rewrite Htuple.
    + split; [apply pair_hashers_length|].
      split; [apply pair_hashers_lookup|apply pair_hashers_zip].
Qed.

(** C9. k1.is(k2) is true exactly when k2 has the section and the method of
    k1; whatever bytes, arguments, descriptor and output type the two keys
    have, two keys with the same section and the same method match. *)
Theorem is_by_section_and_method :
  (forall this key0,
     is_ this key0 =
       bool_decide (section key0 = section this /\ method key0 = method this)) /\
  (forall sec meth content1 args1 meta1 type1 content2 args2 meta2 type2,
     is_ (mkStorageKey content1 args1 meta1 type1 meth sec)
         (mkStorageKey content2 args2 meta2 type2 meth sec) = true).
Proof.
  split.
  - intros this key0. unfold is_.
    destruct (decide (section key0 = section this)) as [Hs|Hs];
      destruct (decide (method key0 = method this)) as [Hm|Hm].
    + rewrite !bool_decide_eq_true_2; done.
    + rewrite (bool_decide_eq_false_2 (method _ = _)) by done.
      rewrite andb_false_r. symmetry. apply bool_decide_eq_false_2. by intros [_ ?].
    + rewrite (bool_decide_eq_false_2 (section _ = _)) by done.
      symmetry. apply bool_decide_eq_false_2. by intros [? _].
    + rewrite (bool_decide_eq_false_2 (section _ = _)) by done.
      symmetry. apply bool_decide_eq_false_2. by intros [? _].
  - intros. unfold is_. simpl. by rewrite !bool_decide_eq_true_2.
Qed.

End Facts.

End StorageFacts.
(** ** The definitions run on concrete instances *)

Module Runs.

Import Metadata Sample MetadataFacts.

#[local] Existing Instance metadata_imports.

#[local] Open Scope Z_scope.

(** A version 9 instance asked for version 12: the three transforms run in
    order, once each, and asking again changes nothing. *)
Example asV12_of_v9 :
  (asV 12 (fresh 9)).1 = Ok [10; 11; 12] /\
  ran (asV 12 (fresh 9)).2 = [ver 10; ver 11; ver 12] /\
  asV 12 (asV 12 (fresh 9)).2 = (Ok [10; 11; 12], (asV 12 (fresh 9)).2) /\
  stepwise 9 3 (fresh 9) = asV 12 (fresh 9).
Proof. vm_compute. repeat split. Qed.

(** From version 9 all the way: five transforms, then toLatest. *)
Example asLatest_of_v9 :
  (asLatest (fresh 9)).1 = Ok [10; 11; 12; 13; 14; 0] /\
  ran (asLatest (fresh 9)).2 = [ver 10; ver 11; ver 12; ver 13; ver 14; latest].
Proof. vm_compute. repeat split. Qed.

(** C1 on a new version 9 instance asked for version 12. *)
Lemma asVN_chain_witness :
  reachable (fresh 9) /\ 9 <= version (fresh 9) /\ version (fresh 9) < 12 <= 14 /\
  exists s1 s2,
    asV 12 (fresh 9) = (Ok [10; 11; 12], s1) /\
    converted s1 !! ver 12 = Some [10; 11; 12] /\
    asV 12 s1 = (Ok [10; 11; 12], s1) /\
    NoDup (ran (fresh 9)) /\ NoDup (ran s1) /\
    stepwise 9 3 (fresh 9) = (Ok [10; 11; 12], s2) /\
    NoDup (ran s2).
Proof.
  split; [apply reachable_new|].
  split; [change (9 <= 9); lia|].
  split; [change (9 < 12 <= 14); lia|].
  apply (asVN_chain (fresh 9) 12);
    [apply reachable_new|change (9 <= 9); lia|change (9 < 12 <= 14); lia].
Defined.

(** C3 on a version 10 instance: asV9 throws, asV10 returns the embedded
    value. *)
Lemma asVN_below_or_same_witness :
  9 <= 9 <= 14 /\
  asV 9 (fresh 10) = (Throw (CannotConvertMetadata 10 9), fresh 10).
Proof.
  split; [lia|].
  apply (proj1 (asVN_below_or_same (fresh 10) 9 ltac:(lia))).
  change (9 < 10). lia.
Defined.

Example asV10_of_v10 : asV 10 (fresh 10) = (Ok [], fresh 10).
Proof. reflexivity. Qed.

(** C4 on a new version 14 instance: toLatest runs on the embedded value. *)
Lemma asLatest_normalizes_witness :
  reachable (fresh 14) /\ 9 <= version (fresh 14) <= 14 /\
  exists x14 s14 s',
    asV14 (fresh 14) = (Ok x14, s14) /\
    (version (fresh 14) = 14 -> x14 = inner (metadata (fresh 14))) /\
    asLatest (fresh 14) = (Ok (toLatest (registry (fresh 14)) x14 (version (fresh 14))), s') /\
    converted s' !! latest = Some (toLatest (registry (fresh 14)) x14 (version (fresh 14))) /\
    latest ∈ ran s' /\
    (converted (fresh 14) !! latest = None ->
       ran s' = ran s14 ++ [latest] /\
       converted s' =
         <[latest := toLatest (registry (fresh 14)) x14 (version (fresh 14))]>
           (converted s14)).
Proof.
  split; [apply reachable_new|].
  split; [change (9 <= 14 <= 14); lia|].
  apply (asLatest_normalizes (fresh 14));
    [apply reachable_new|change (9 <= 14 <= 14); lia].
Defined.

Example asLatest_of_v14 :
  asLatest (fresh 14) =
    (Ok [0],
     mkMetadataVersioned tt MAGIC_NUMBER (mkMetadataAll 14 []) {[latest := [0]]}
       [latest]).
Proof. vm_compute. reflexivity. Qed.


Example toJSON_of_v13 :
  (toJSON (fresh 13)).1 = Ok (MAGIC_NUMBER, (13, [])) /\
  (toJSON (fresh 13)).2 = (asLatest (fresh 13)).2 /\
  ran (toJSON (fresh 13)).2 = [ver 14; latest].
Proof. vm_compute. repeat split. Qed.


(** C10 as amended, on a store that holds one new version 9 instance. *)
Lemma asCallsOnly_builds_anew_witness :
  [fresh 9] !! 0%nat = Some (fresh 9) /\ reachable (fresh 9) /\
  9 <= version (fresh 9) <= 14 /\
  exists o' h1 h2,
    asCallsOnly 0 [fresh 9] = (Ok 1%nat, h1) /\
    h1 !! 1%nat =
      Some (new tt MAGIC_NUMBER (mkMetadataAll 14 [10; 11; 12; 13; 14; 0; -1])) /\
    h1 !! 0%nat = Some o' /\ same_core (fresh 9) o' /\
    converted o' !! latest = Some [10; 11; 12; 13; 14; 0] /\
    (forall m, 9 < m <= 14 ->
       converted o' !! ver m = Some (migrated (fresh 9) m)) /\
    asCallsOnly 0 h1 = (Ok 2%nat, h2) /\
    h2 !! 1%nat = h1 !! 1%nat /\ h2 !! 2%nat = h1 !! 1%nat /\ h2 !! 0%nat = Some o'.
Proof.
  split; [reflexivity|]. split; [apply reachable_new|].
  split; [change (9 <= 9 <= 14); lia|].
  destruct (asCallsOnly_builds_anew [fresh 9] 0 (fresh 9) eq_refl
              (reachable_new _ _ _) ltac:(change (9 <= 9 <= 14); lia))
    as (o' & h1 & h2 & Hrun & _ & Hmade & _ & _ & _ & _ & Hthis & Hcore & _ &
        Hlatest & Hgained & _ & _ & _ & Hagain & Hfirst & Hsecond & Hthis2).
  exists o', h1, h2. split; [exact Hrun|]. split; [exact Hmade|].
  split; [exact Hthis|]. split; [exact Hcore|]. split; [exact Hlatest|].
  split; [exact Hgained|]. split; [exact Hagain|]. split; [exact (eq_trans Hfirst (eq_sym Hmade))|].
  split; [exact (eq_trans Hsecond (eq_sym Hmade))|exact Hthis2].
Defined.

(** C10 as the claim states it: the original would be as it was but for a
    'latest' entry in its cache. A new version 9 instance has the entries of
    versions 10 to 14 as well after asCallsOnly was read off it. *)
Lemma asCallsOnly_caches_the_chain :
  exists o' h1,
    asCallsOnly 0 [fresh 9] = (Ok 1%nat, h1) /\ h1 !! 0%nat = Some o' /\
    converted (fresh 9) !! ver 10 = None /\
    converted o' !! ver 10 = Some [10] /\
    converted o' <> <[latest := normalized (fresh 9)]> (converted (fresh 9)).
Proof.
  eexists _, _. split; [vm_compute; reflexivity|]. split; [reflexivity|].
  split; [reflexivity|]. split; [vm_compute; reflexivity|].
  intros Heq. apply (f_equal (fun m => m !! ver 10)) in Heq.
  vm_compute in Heq. discriminate.
Qed.

End Runs.
Module StorageRuns.

Import Storage Sample StorageFacts.

#[local] Existing Instance storage_imports.

(** A key over a Twox64Concat map: 32 bytes of prefix, 8 bytes of hash, then
    the encoded argument, which comes back. *)
Example decode_concat :
  decodeHashers tt (prefix ++ repeat xff 8 ++ [x2a]) [(Twox64Concat, Some 0)]
    = Ok [Typed x2a] /\
  decodeHashers_reduce tt (prefix ++ repeat xff 8 ++ [x2a]) [(Twox64Concat, Some 0)]
    = Ok (41, [Typed x2a]).
Proof. vm_compute. repeat split. Qed.

(** The same map under Twox128: the 16 bytes of the hash come back raw. *)
Example decode_opaque :
  decodeHashers tt (prefix ++ repeat xff 16) [(Twox128, Some 0)]
    = Ok [Raw (repeat xff 16)].
Proof. vm_compute. reflexivity. Qed.

(** Two hashers, one offset: 16 opaque bytes, then 8 bytes of hash skipped
    and one byte decoded at offset 56. *)
Example decode_two :
  decodeHashers_reduce tt (prefix ++ repeat xff 16 ++ repeat xee 8 ++ [x07])
    [(Blake2_128, Some 0); (Twox64Concat, Some 1)]
    = Ok (57, [Raw (repeat xff 16); Typed x07]).
Proof. vm_compute. reflexivity. Qed.

(** C2 as the claim states it: an opaque hasher would always yield a raw
    value of its hash length. On a key that ends with its 32 byte prefix the
    argument of a Twox128 hasher is a raw value of no bytes. *)
Lemma opaque_argument_of_a_short_key :
  decodeHashers tt prefix [(Twox128, Some 0)] = Ok [Raw []] /\
  ~ (forall value entries args,
       decodeHashers tt value entries = Ok args ->
       forall i h t,
         entries !! i = Some (h, t) -> (hasher_kind_table h).2 = false ->
         exists u8a,
           args !! i = Some (Raw u8a) /\ length u8a = (hasher_kind_table h).1).
Proof.
  split; [vm_compute; reflexivity|].
  intros Hclaim.
  destruct (Hclaim prefix [(Twox128, Some 0)] [Raw []] eq_refl 0 Twox128 (Some 0)
              eq_refl eq_refl) as (u8a & [= <-] & Hlen).
  discriminate Hlen.
Qed.

(** C7 on a map with two hashers whose key type is not a tuple in the
    sample registry would throw; the pairing itself, on a tuple of two. *)
Example pair_two :
  pair_hashers [Blake2_128Concat; Twox64Concat] [7; 9]
    = [(Blake2_128Concat, Some 7); (Twox64Concat, Some 9)] /\
  pair_hashers [Blake2_128Concat; Twox64Concat] [7]
    = [(Blake2_128Concat, Some 7); (Twox64Concat, None)].
Proof. split; reflexivity. Qed.

(** A key that ends with its prefix decodes all the same: what is decoded
    from no bytes is the default of the type. *)
Example decode_short :
  decodeHashers_reduce tt prefix [(Twox64Concat, Some 0)]
    = Ok (41, [Typed x00]) /\
  new tt (InStorageEntry (map_entry Twox64Concat)) (mkOverride None None)
    = Ok short_key.
Proof. vm_compute. repeat split. Qed.

(** C5 on [pair_entry], whose descriptor has two hashers over a key type
    that is no tuple, so that asTuple throws in decodeArgsFromMeta. Built
    from the entry and two params, the key has no arguments at all. *)
Lemma failed_decode_leaves_args_unassigned_witness :
  decodeStorageKey (InArray pair_entry (Some [[x01]; [x02]]))
    = Ok (mkDecoded (KeyU8a (prefix ++ [x01; x02])) (Some "account") (Some "system")) /\
  getSiType_asTuple tt 0 = Throw (Raised "not a tuple") /\
  decodeArgsFromMeta tt (prefix ++ [x01; x02]) (Some pair_meta)
    = Throw (Raised "not a tuple") /\
  exists k,
    new tt (InArray pair_entry (Some [[x01]; [x02]])) (mkOverride None None) = Ok k /\
    content k = prefix ++ [x01; x02] /\ meta k = Some pair_meta /\
    outputType k = "u8" /\
    method k = Some "account" /\ section k = Some "system" /\
    args k = None /\ args k <> Some [] /\
    toHuman k = Throw (TypeError "length of undefined") /\
    exists k',
      setMeta tt (Some pair_meta) None None
        (mkStorageKey (prefix ++ [x01; x02]) (Some [Typed x2a]) None "Raw"
           (Some "account") (Some "system")) = (Ok tt, k') /\
      args k' = Some [Typed x2a].
Proof.
  split; [reflexivity|]. split; [reflexivity|]. split; [reflexivity|].
  destruct (failed_decode_leaves_args_unassigned (H := storage_imports) tt
              (InArray pair_entry (Some [[x01]; [x02]])) (mkOverride None None)
              (mkDecoded (KeyU8a (prefix ++ [x01; x02]))
                 (Some "account") (Some "system"))
              (prefix ++ [x01; x02]) pair_meta "u8" (Raised "not a tuple")
              eq_refl eq_refl eq_refl eq_refl eq_refl)
    as [(k & Hnew & Hcontent & Hmeta & Htype & Hmethod & Hsection & Hnone &
         Hnot & Hhuman) Hset].
  exists k. split; [exact Hnew|]. split; [exact Hcontent|].
  split; [exact Hmeta|]. split; [exact Htype|]. split; [exact Hmethod|].
  split; [exact Hsection|]. split; [exact Hnone|]. split; [exact Hnot|].
  split; [exact Hhuman|].
  destruct (Hset (mkStorageKey (prefix ++ [x01; x02])
                    (Some [@Typed storage_imports x2a]) None "Raw"
                    (Some "account") (Some "system")) None None eq_refl)
    as (k' & Hrun & _ & _ & _ & _ & Hargs & _).
  exists k'. split; [exact Hrun|exact Hargs].
Defined.

(** The same run, evaluated: the key that the constructor returns, and a
    key that was decoded for a descriptor with one Identity hasher and is
    then given [pair_meta], which leaves it the argument of before. *)
Example failed_decode_runs :
  new tt (InArray pair_entry (Some [[x01]; [x02]])) (mkOverride None None)
    = Ok unread_key /\
  args unread_key = None /\
  toHuman unread_key = Throw (TypeError "length of undefined") /\
  (let decoded :=
     (setMeta tt (Some (map_meta Identity)) None None
        (mkStorageKey (prefix ++ [x2a]) (Some []) None "Raw" None None)).2 in
   args decoded = Some [Typed x2a] /\
   decodeArgsFromMeta tt (content decoded) (Some pair_meta)
     = Throw (Raised "not a tuple") /\
   setMeta tt (Some pair_meta) None None decoded
     = (Ok tt,
        mkStorageKey (prefix ++ [x2a]) (Some [Typed x2a])
          (Some pair_meta) "u8" None None)).
Proof. vm_compute. repeat split. Qed.

End StorageRuns.
(** ** Facts about the democracy votes *)

Module DemocracyFacts.

Import Democracy.

#[local] Open Scope Z_scope.

(** What div and mod give on a dividend that is not negative and a divisor
    that is positive. *)
Lemma quot_rem_pos n d :
  0 <= n -> 0 < d ->
  n = d * Z.quot n d + Z.rem n d /\ 0 <= Z.rem n d < d /\ 0 <= Z.quot n d.
Proof.
  intros Hn Hd. split; [apply Z.quot_rem'|].
  split; [by apply Z.rem_bound_pos|]. apply Z.quot_pos; lia.
Qed.

Lemma compareRationals_zero n1 d1 n2 d2 :
  (d1 = 0 \/ d2 = 0 -> compareRationals n1 d1 n2 d2 = Throw zero_divisor) /\
  (d1 <> 0 -> d2 <> 0 -> exists b, compareRationals n1 d1 n2 d2 = Ok b).
Proof.
  funelim (compareRationals n1 d1 n2 d2); split;
    try done; try (by intros [?|?]); try (intros _ _; by eexists).
  intros _ _. by apply H.
Qed.

(** A smaller whole part is a smaller fraction. *)
Lemma quot_lt_cross n1 d1 n2 d2 :
  0 <= n1 -> 0 <= n2 -> 0 < d1 -> 0 < d2 ->
  Z.quot n1 d1 < Z.quot n2 d2 -> n1 * d2 < n2 * d1.
Proof.
  intros Hn1 Hn2 Hd1 Hd2 Hlt.
  destruct (quot_rem_pos n1 d1 Hn1 Hd1) as (Hq1 & Hr1 & Hp1).
  destruct (quot_rem_pos n2 d2 Hn2 Hd2) as (Hq2 & Hr2 & Hp2).
  set (q1 := Z.quot n1 d1) in *. set (q2 := Z.quot n2 d2) in *.
  assert (n1 + 1 <= d1 * q2) by nia.
  assert (d2 * q2 <= n2) by lia.
  apply Z.lt_le_trans with (d1 * q2 * d2); [nia|].
  replace (d1 * q2 * d2) with (d2 * q2 * d1) by ring.
  apply Z.mul_le_mono_nonneg_r; lia.
Qed.

Lemma compareRationals_cross n1 d1 n2 d2 :
  0 <= n1 -> 0 <= n2 -> 0 < d1 -> 0 < d2 ->
  compareRationals n1 d1 n2 d2 = Ok (bool_decide (n1 * d2 < n2 * d1)).
Proof.
  funelim (compareRationals n1 d1 n2 d2); intros Hn1 Hn2 Hd1' Hd2'; try lia.
  - rewrite bool_decide_eq_true_2; [done|]. by apply quot_lt_cross.
  - rewrite bool_decide_eq_false_2; [done|].
    pose proof (quot_lt_cross n2 d2 n1 d1 Hn2 Hn1 Hd2' Hd1' l). lia.
  - destruct (quot_rem_pos n1 d1 Hn1 Hd1') as (Hq1 & Hr1' & Hp1).
    destruct (quot_rem_pos n2 d2 Hn2 Hd2') as (Hq2 & Hr2' & Hp2).
    assert (Hq : Z.quot n1 d1 = Z.quot n2 d2) by lia.
    rewrite bool_decide_eq_false_2; [done|].
    rewrite Hq1, Hq2, Hq, e. nia.
  - destruct (quot_rem_pos n1 d1 Hn1 Hd1') as (Hq1 & Hr1' & Hp1).
    destruct (quot_rem_pos n2 d2 Hn2 Hd2') as (Hq2 & Hr2' & Hp2).
    assert (Hq : Z.quot n1 d1 = Z.quot n2 d2) by lia.
    rewrite bool_decide_eq_true_2; [done|].
    rewrite Hq1, Hq2, Hq, e. nia.
  - destruct (quot_rem_pos n1 d1 Hn1 Hd1') as (Hq1 & Hr1' & Hp1).
    destruct (quot_rem_pos n2 d2 Hn2 Hd2') as (Hq2 & Hr2' & Hp2).
    assert (Hq : Z.quot n1 d1 = Z.quot n2 d2) by lia.
    rewrite H by lia. f_equal. apply bool_decide_ext.
    rewrite Hq1 at 2. rewrite Hq2 at 2. rewrite Hq. nia.
Qed.

(** compareRationals throws exactly when one of the two denominators it is
    given is zero: no later round of its loop divides by zero. *)
Theorem compareRationals_throws n1 d1 n2 d2 :
  (d1 = 0 \/ d2 = 0 -> compareRationals n1 d1 n2 d2 = Throw zero_divisor) /\
  (d1 <> 0 -> d2 <> 0 -> exists b, compareRationals n1 d1 n2 d2 = Ok b).
Proof. apply compareRationals_zero. Qed.

(** On numerators that are not negative and denominators that are positive
    compareRationals is the comparison of the two fractions:
    n1 / d1 < n2 / d2. *)
Theorem compareRationals_less n1 d1 n2 d2 :
  0 <= n1 -> 0 <= n2 -> 0 < d1 -> 0 < d2 ->
  compareRationals n1 d1 n2 d2 = Ok (bool_decide (n1 * d2 < n2 * d1)).
Proof. apply compareRationals_cross. Qed.

Section Votes.

Variable bnSqrt : Z -> outcome Z.
Variable AccountId : Type.

Implicit Types (votes : list (DeriveReferendumVote AccountId)).
Implicit Types (st : DeriveReferendumVoteState AccountId).

(** calcPassing decides the threshold from the three figures and the two
    square roots: a simple majority passes when the ayes outnumber the nays;
    a super majority passes when nays / sqrt(voters) < ayes /
    sqrt(electorate) (approve) or nays / sqrt(electorate) < ayes /
    sqrt(voters) (against), and never without voters. *)
Theorem calcPassing_decides threshold sqrtElectorate (state : ApproxState) sqrtVoters :
  bnSqrt (votedTotal state) = Ok sqrtVoters ->
  0 <= sqrtVoters -> 0 < sqrtElectorate ->
  0 <= votedAye state -> 0 <= votedNay state ->
  calcPassing bnSqrt threshold sqrtElectorate state =
    Ok match threshold with
       | SimpleMajority => bool_decide (votedNay state < votedAye state)
       | SuperMajorityApprove =>
           bool_decide (sqrtVoters <> 0 /\
                        votedNay state * sqrtElectorate < votedAye state * sqrtVoters)
       | SuperMajorityAgainst =>
           bool_decide (sqrtVoters <> 0 /\
                        votedNay state * sqrtVoters < votedAye state * sqrtElectorate)
       end.
Proof.
  intros Hsqrt Hvoters Helectorate Haye Hnay.
  destruct threshold; simpl; [| |done];
    unfold calcPassingOther; rewrite Hsqrt; simpl;
    (destruct (decide (sqrtVoters = 0)) as [->|Hne];
     [by rewrite bool_decide_eq_false_2 by (by intros [? _])|]);
    rewrite compareRationals_cross by lia; f_equal; apply bool_decide_ext; tauto.
Qed.

(** A super majority cannot be decided against an electorate of square root
    zero: with voters, the comparison divides by it. *)
Theorem calcPassing_no_electorate threshold (state : ApproxState) sqrtVoters :
  threshold <> SimpleMajority ->
  bnSqrt (votedTotal state) = Ok sqrtVoters -> sqrtVoters <> 0 ->
  calcPassing bnSqrt threshold 0 state = Throw zero_divisor.
Proof.
  intros Hthreshold Hsqrt Hvoters.
  destruct threshold; [| |done]; simpl;
    unfold calcPassingOther; rewrite Hsqrt; simpl;
    rewrite decide_False by done;
    apply compareRationals_zero; auto.
Qed.

(** The reduce of calcVotesPrev from any state on. *)
Lemma calcVotesPrev_fold votes st :
  let st' := fold_left calcVotesPrev_step votes st in
  allAye st' = allAye st ++ votesAye votes /\
  allNay st' = allNay st ++ votesNay votes /\
  voteCount st' = voteCount st + Z.of_nat (length votes) /\
  voteCountAye st' = voteCountAye st + Z.of_nat (length (votesAye votes)) /\
  voteCountNay st' = voteCountNay st + Z.of_nat (length (votesNay votes)) /\
  state_votedAye st' = state_votedAye st + countedAll (votesAye votes) /\
  state_votedNay st' = state_votedNay st + countedAll (votesNay votes) /\
  state_votedTotal st' = state_votedTotal st + countedAll votes.
Proof.
  revert st. induction votes as [|derived votes IH]; intros st; cbn [fold_left].
  - unfold votesAye, votesNay. rewrite !filter_nil, !app_nil_r. simpl.
    repeat split; lia.
  - destruct (IH (calcVotesPrev_step st derived))
      as (Ha & Hn & Hc & Hca & Hcn & Hva & Hvn & Hvt).
    rewrite Ha, Hn, Hc, Hca, Hcn, Hva, Hvn, Hvt. clear.
    unfold votesAye, votesNay, calcVotesPrev_step. rewrite !filter_cons.
    destruct (isAye (vote derived)) eqn:Haye.
    + rewrite decide_True by done. rewrite decide_False by (by intros []).
      cbn -[Z.add Z.of_nat]. rewrite <- !app_assoc.
      repeat split; try done; unfold countedAll; lia.
    + rewrite decide_False by done. rewrite decide_True by done.
      cbn -[Z.add Z.of_nat]. rewrite <- !app_assoc.
      repeat split; try done; unfold countedAll; lia.
Qed.

(** Ayes and nays are all the votes. *)
Lemma votes_split votes : votesAye votes ++ votesNay votes ≡ₚ votes.
Proof. apply filter_app_complement. Qed.

Lemma countedAll_app votes1 votes2 :
  countedAll (votes1 ++ votes2) = countedAll votes1 + countedAll votes2.
Proof. induction votes1 as [|d votes1 IH]; simpl; lia. Qed.

Lemma countedAll_perm votes1 votes2 :
  votes1 ≡ₚ votes2 -> countedAll votes1 = countedAll votes2.
Proof. induction 1; simpl; lia. Qed.

(** calcVotesPrev sorts the votes into ayes and nays, each list in the order
    of the votes and every vote in exactly one of them; its three counts are
    the lengths of the lists and of the votes; votedAye and votedNay are
    what the ayes and the nays count for, and votedTotal is their sum. *)
Theorem calcVotesPrev_tallies votes :
  let st := calcVotesPrev votes in
  allAye st = votesAye votes /\ allNay st = votesNay votes /\
  allAye st ++ allNay st ≡ₚ votes /\
  voteCount st = Z.of_nat (length votes) /\
  voteCountAye st = Z.of_nat (length (allAye st)) /\
  voteCountNay st = Z.of_nat (length (allNay st)) /\
  voteCount st = voteCountAye st + voteCountNay st /\
  state_votedAye st = countedAll (allAye st) /\
  state_votedNay st = countedAll (allNay st) /\
  state_votedTotal st = state_votedAye st + state_votedNay st.
Proof.
  intros st. unfold st, calcVotesPrev.
  destruct (calcVotesPrev_fold votes (mkVoteState [] [] 0 0 0 0 0 0))
    as (Ha & Hn & Hc & Hca & Hcn & Hva & Hvn & Hvt).
  simpl in *. rewrite Ha, Hn, Hc, Hca, Hcn, Hva, Hvn, Hvt.
  pose proof (votes_split votes) as Hsplit.
  pose proof (Permutation_length Hsplit) as Hlen. rewrite length_app in Hlen.
  pose proof (countedAll_perm _ _ Hsplit) as Hsum. rewrite countedAll_app in Hsum.
  repeat split; try done; lia.
Qed.

(** The forEach of calcVotesCurrent from any two arrays on. *)
Lemma calcVotesCurrent_fold votes acc :
  fold_left calcVotesCurrent_push votes acc =
    (acc.1 ++ votesAye votes, acc.2 ++ votesNay votes).
Proof.
  revert acc. induction votes as [|derived votes IH]; intros [aye nay];
    cbn [fold_left].
  - unfold votesAye, votesNay. by rewrite !filter_nil, !app_nil_r.
  - rewrite IH. unfold votesAye, votesNay, calcVotesCurrent_push.
    rewrite !filter_cons. destruct (isAye (vote derived)) eqn:Haye.
    + rewrite decide_True by done. rewrite decide_False by (by intros []).
      cbn [fst snd]. by rewrite <- app_assoc.
    + rewrite decide_False by done. rewrite decide_True by done.
      cbn [fst snd]. by rewrite <- app_assoc.
Qed.

(** calcVotes returns the votes it was given and sorts them into ayes and
    nays in the same way for both generations of status, with counts that
    are the lengths. With a tally (the current generation) the three voted
    figures are those of the tally and whether the referendum passes does
    not depend on the votes. *)
Theorem calcVotes_lists sqrtElectorate status votes result :
  calcVotes bnSqrt sqrtElectorate status votes = Ok result ->
  Democracy.votes result = votes /\
  allAye (state result) = votesAye votes /\
  allNay (state result) = votesNay votes /\
  voteCount (state result) = Z.of_nat (length votes) /\
  voteCountAye (state result) = Z.of_nat (length (votesAye votes)) /\
  voteCountNay (state result) = Z.of_nat (length (votesNay votes)) /\
  calcPassing bnSqrt (threshold status) sqrtElectorate (approx (state result))
    = Ok (isPassing result) /\
  (forall t, tally status = Some t ->
     approx (state result) = mkApproxState (ayes t) (nays t) (turnout t) /\
     forall votes',
       isPassing <$> calcVotes bnSqrt sqrtElectorate status votes'
         = Ok (isPassing result)).
Proof.
  unfold calcVotes. intros Hrun.
  pose proof (votes_split votes) as Hsplit.
  pose proof (Permutation_length Hsplit) as Hlen. rewrite length_app in Hlen.
  destruct (tally status) as [t|] eqn:Htally.
  - unfold calcVotesCurrent in *. rewrite calcVotesCurrent_fold in Hrun.
    simpl in Hrun.
    destruct (calcPassing _ _ _ _) as [passing|e] eqn:Hpass; [|done].
    injection Hrun as <-. simpl.
    split; [done|]. split; [done|]. split; [done|]. split; [lia|].
    split; [done|]. split; [done|]. split; [done|].
    intros t' [= <-]. split; [done|].
    intros votes'. rewrite calcVotesCurrent_fold. simpl.
    unfold approx in Hpass. simpl in Hpass. unfold approx. simpl.
    by rewrite Hpass.
  - destruct (calcVotesPrev_fold votes (mkVoteState [] [] 0 0 0 0 0 0))
      as (Ha & Hn & Hc & Hca & Hcn & _).
    simpl in Ha, Hn, Hc, Hca, Hcn. fold (calcVotesPrev votes) in *.
    destruct (calcPassing _ _ _ _) as [passing|e] eqn:Hpass; [|done].
    injection Hrun as <-. simpl.
    split; [done|]. split; [done|]. split; [done|]. split; [done|].
    split; [done|]. split; [done|]. split; [done|]. by intros t [=].
Qed.

End Votes.

End DemocracyFacts.

(** ** Facts about mapRewards and #getGas *)

Module EraRewardsFacts.

Import EraRewards.

Section Facts.

Variable EraIndex : Type.
Variable Balance : Type.
Variable OptionBalance : Type.
Variable unwrapOrDefault : OptionBalance -> Balance.

Implicit Types (eras : list EraIndex) (optRewards : list OptionBalance).

Lemma mapRewards_from_enough index eras optRewards :
  length eras <= length (drop index optRewards) ->
  mapRewards_from unwrapOrDefault index eras optRewards =
    Ok (zip_with mkEraRewards eras (unwrapOrDefault <$> drop index optRewards)).
Proof.
  revert index. induction eras as [|era eras IH]; intros index Hlen; [done|].
  simpl in *.
  destruct (optRewards !! index) as [o|] eqn:Ho.
  - rewrite (drop_S _ _ _ Ho) in Hlen |- *. simpl in *.
    rewrite IH by lia. done.
  - apply lookup_ge_None_1 in Ho. rewrite drop_ge in Hlen by done.
    simpl in Hlen. lia.
Qed.

Lemma mapRewards_from_short index eras optRewards :
  length (drop index optRewards) < length eras ->
  mapRewards_from unwrapOrDefault index eras optRewards =
    Throw (TypeError "unwrapOrDefault of undefined").
Proof.
  revert index. induction eras as [|era eras IH]; intros index Hlen;
    simpl in *; [lia|].
  destruct (optRewards !! index) as [o|] eqn:Ho; [|done].
  rewrite (drop_S _ _ _ Ho) in Hlen. simpl in Hlen.
  rewrite IH by lia. done.
Qed.

(** mapRewards pairs every era, in order, with the unwrapped reward at its
    position, when there are at least as many rewards as eras; further
    rewards are ignored. With fewer rewards than eras it throws, and returns
    no part of the list. *)
Theorem mapRewards_pairs eras optRewards :
  (length eras <= length optRewards ->
   mapRewards unwrapOrDefault eras optRewards =
     Ok (zip_with mkEraRewards eras (unwrapOrDefault <$> optRewards)) /\
   length (zip_with mkEraRewards eras (unwrapOrDefault <$> optRewards))
     = length eras) /\
  (length optRewards < length eras ->
   mapRewards unwrapOrDefault eras optRewards =
     Throw (TypeError "unwrapOrDefault of undefined")).
Proof.
  unfold mapRewards. split; intros Hlen.
  - split; [by apply mapRewards_from_enough|].
    rewrite length_zip_with, length_fmap. lia.
  - by apply mapRewards_from_short.
Qed.

End Facts.

End EraRewardsFacts.

Module ContractFacts.

Import Contract.

#[local] Open Scope Z_scope.

(** #getGas passes a positive gas limit on as it is, however large. For a
    limit of zero or less, a call gets MAX_CALL_GAS, which is positive, and
    a transaction gets 64% of the block weight, rounded down: at most the
    block weight, and zero exactly for a block weight below 2. Without any
    block weight in the constants it throws. *)
Theorem getGas_limits consts gasLimit isCall :
  (0 < gasLimit -> getGas consts gasLimit isCall = Ok gasLimit) /\
  (gasLimit <= 0 -> isCall = true ->
     getGas consts gasLimit isCall = Ok MAX_CALL_GAS /\ 0 < MAX_CALL_GAS) /\
  (gasLimit <= 0 -> isCall = false ->
     (blockWeight consts = None ->
        getGas consts gasLimit isCall = Throw (TypeError "muln of undefined")) /\
     (forall weight, blockWeight consts = Some weight -> 0 <= weight ->
        exists gas,
          getGas consts gasLimit isCall = Ok gas /\
          100 * gas <= 64 * weight < 100 * (gas + 1) /\
          0 <= gas <= weight /\ (gas = 0 <-> weight < 2))).
Proof.
  unfold getGas. split; [|split].
  - intros Hpos. by rewrite decide_False by lia.
  - intros Hle ->. by rewrite decide_True by done.
  - intros Hle ->. rewrite decide_True by done. split.
    + by intros ->.
    + intros weight -> Hweight. eexists. split; [done|].
      pose proof (Z.quot_rem' (weight * 64) 100) as Hqr.
      pose proof (Z.rem_bound_pos (weight * 64) 100 ltac:(lia) ltac:(lia)).
      lia.
Qed.

End ContractFacts.

(** ** More facts about MetadataVersioned *)

Module MetadataMoreFacts.

Import Metadata MetadataFacts MetadataMore.

#[local] Open Scope Z_scope.

Section Facts.

Context `{Imports}.

Variable util_getUniqTypes : Registry -> MetaMapped -> bool -> outcome (list string).

Implicit Types (s : MetadataVersioned) (n V : Z) (name : MetaAsX).

(** *** A getter that throws leaves the instance as it is *)

Lemma getVersion_throw_keeps v f (p : M MetaMapped) :
  (forall s e s', p s = (Throw e, s') -> s' = s) ->
  forall s e s', getVersion v f p s = (Throw e, s') -> s' = s.
Proof.
  intros Hp s e s'.
  assert (Hcache : to_cache v s ->
                   getVersion v f p s = (Throw e, s') -> s' = s).
  { intros Hto. destruct (converted s !! v) as [x|] eqn:Hx.
    - by rewrite (getVersion_hit _ _ _ _ x).
    - rewrite getVersion_miss by done.
      destruct (p s) as [[prev|e1] s1] eqn:Hps; [done|].
      intros [= _ <-]. by eapply Hp. }
  destruct v as [|n]; [by apply Hcache|].
  destruct (Z.lt_trichotomy (version s) n) as [Hlt|[Heq|Hgt]].
  - by apply Hcache.
  - by rewrite getVersion_same.
  - rewrite getVersion_downgrade by done. by intros [= _ <-].
Qed.

Lemma asV9_throw_keeps s e s' : asV9 s = (Throw e, s') -> s' = s.
Proof.
  unfold asV9, bind, assertVersion, lift.
  destruct (decide (version s <= 9)); by intros [= _ <-].
Qed.

Lemma getter_throw_keeps name s e s' : getter name s = (Throw e, s') -> s' = s.
Proof.
  pose proof asV9_throw_keeps as H9.
  pose proof (getVersion_throw_keeps (ver 10) toV10 _ H9) as H10.
  pose proof (getVersion_throw_keeps (ver 11) toV11 _ H10) as H11.
  pose proof (getVersion_throw_keeps (ver 12) toV12 _ H11) as H12.
  pose proof (getVersion_throw_keeps (ver 13) toV13 _ H12) as H13.
  pose proof (getVersion_throw_keeps (ver 14) toV14 _ H13) as H14.
  destruct name; simpl; eauto.
Qed.

Lemma asLatest_throw_keeps s e s' : asLatest s = (Throw e, s') -> s' = s.
Proof.
  apply getVersion_throw_keeps. intros s0 e0 s0'.
  apply (getter_throw_keeps AsV14).
Qed.

(** *** The record of the transforms only grows at its end *)

Lemma getVersion_ran_prefix v f (p : M MetaMapped) :
  (forall s, ran s `prefix_of` ran (p s).2) ->
  forall s, ran s `prefix_of` ran (getVersion v f p s).2.
Proof.
  intros Hp s.
  assert (Hcache : to_cache v s -> ran s `prefix_of` ran (getVersion v f p s).2).
  { intros Hto. destruct (converted s !! v) as [x|] eqn:Hx.
    - by rewrite (getVersion_hit _ _ _ _ x).
    - rewrite getVersion_miss by done. specialize (Hp s).
      destruct (p s) as [[prev|e1] s1]; [|done].
      simpl in *. by apply prefix_app_r. }
  destruct v as [|n]; [by apply Hcache|].
  destruct (Z.lt_trichotomy (version s) n) as [Hlt|[Heq|Hgt]].
  - by apply Hcache.
  - by rewrite getVersion_same.
  - by rewrite getVersion_downgrade.
Qed.

Lemma getter_ran_prefix name s : ran s `prefix_of` ran (getter name s).2.
Proof.
  assert (H9 : forall s, ran s `prefix_of` ran (asV9 s).2).
  { intros s0. unfold asV9, bind, assertVersion, lift.
    by destruct (decide (version s0 <= 9)). }
  pose proof (getVersion_ran_prefix (ver 10) toV10 _ H9) as H10.
  pose proof (getVersion_ran_prefix (ver 11) toV11 _ H10) as H11.
  pose proof (getVersion_ran_prefix (ver 12) toV12 _ H11) as H12.
  pose proof (getVersion_ran_prefix (ver 13) toV13 _ H12) as H13.
  pose proof (getVersion_ran_prefix (ver 14) toV14 _ H13) as H14.
  destruct name; simpl; eauto.
Qed.

Lemma asLatest_ran_prefix s : ran s `prefix_of` ran (asLatest s).2.
Proof. apply getVersion_ran_prefix. apply (getter_ran_prefix AsV14). Qed.

(** Whatever is read off an instance, in whatever order: its registry,
    magicNumber and metadata, and with them its version, stay; no entry of
    the cache is dropped or replaced; and the record of the transforms that
    ran is only added to at its end. *)
Theorem access_keeps s a :
  reachable s ->
  same_core s (after a s) /\
  (converted s ⊆ converted (after a s)) /\
  ran s `prefix_of` ran (after a s) /\
  version (after a s) = version s.
Proof.
  intros Hreach. pose proof (reachable_inv _ Hreach) as Hinv.
  assert (Hlatest : same_core s (after GetLatest s) /\
                    (converted s ⊆ converted (after GetLatest s)) /\
                    ran s `prefix_of` ran (after GetLatest s) /\
                    version (after GetLatest s) = version s).
  { simpl. pose proof (asLatest_ran_prefix s) as Hran.
    destruct (asLatest_sound s Hinv) as (r & s' & Hrun & _ & Hcore & Hsub & _).
    rewrite Hrun in *. simpl in *. repeat split; try done; try apply Hcore.
    by apply same_core_version. }
  destruct a as [name| |]; [|done|by rewrite after_Export].
  simpl. pose proof (getter_ran_prefix name s) as Hran.
  destruct (getter_asV name) as (n & Hn & Hname). rewrite Hname in *.
  destruct (sound_asV n Hn s Hinv) as (r & s' & Hrun & _ & Hcore & _ & Hsub & _).
  rewrite Hrun in *. simpl in *. repeat split; try done; try apply Hcore.
  by apply same_core_version.
Qed.

(** Reading the same thing twice in a row: the second read returns what the
    first returned, a throw included, and leaves the instance as the first
    left it. *)
Theorem access_twice s :
  reachable s ->
  (forall name r s', getter name s = (r, s') -> getter name s' = (r, s')) /\
  (forall r s', asLatest s = (r, s') -> asLatest s' = (r, s')) /\
  (forall r s', toJSON s = (r, s') -> toJSON s' = (r, s')).
Proof.
  intros Hreach. pose proof (reachable_inv _ Hreach) as Hinv.
  assert (Hlatest : forall r s', asLatest s = (r, s') -> asLatest s' = (r, s')).
  { intros r s' Hrun. destruct r as [x|e].
    - destruct (asLatest_sound s Hinv) as (r0 & s0 & Hrun0 & _ & _ & _ & Hok & Hdom).
      rewrite Hrun in Hrun0. injection Hrun0 as <- <-.
      destruct (Hok (Hdom eq_refl)) as [[= ->] Hcached].
      by apply getVersion_hit.
    - apply asLatest_throw_keeps in Hrun as Hsame. by subst s'. }
  split; [|split; [done|]].
  - intros name r s' Hrun. destruct r as [x|e].
    + destruct (getter_asV name) as (n & Hn & Hname). rewrite Hname in *.
      destruct (sound_asV n Hn s Hinv)
        as (r0 & s0 & Hrun0 & _ & Hcore & _ & _ & Hok & Hdom).
      rewrite Hrun in Hrun0. injection Hrun0 as <- <-.
      specialize (Hdom eq_refl). destruct (Hok Hdom) as [[= ->] Hcached].
      destruct (decide (version s = n)) as [Heq|Hne].
      * rewrite asV_same in Hrun by done. injection Hrun as _ <-.
        rewrite asV_same by done. subst n. by rewrite migrated_same.
      * apply asV_cached; [lia| |apply Hcached; lia].
        rewrite (same_core_version _ _ Hcore). lia.
    + apply getter_throw_keeps in Hrun as Hsame. by subst s'.
  - intros r s'. rewrite !toJSON_unfold.
    destruct (asLatest s) as [[l|e] s0] eqn:Hrun; intros [= <- <-].
    + by rewrite (Hlatest _ _ eq_refl).
    + by rewrite (Hlatest _ _ eq_refl).
Qed.

(** What a getter returns does not depend on what was read before: on two
    instances with the same registry and the same metadata, whatever their
    caches came to hold, asVN for a target N at or above the source version
    returns the same value, and so does asLatest. *)
Theorem reads_agree s1 s2 N :
  reachable s1 -> reachable s2 ->
  registry s1 = registry s2 -> metadata s1 = metadata s2 ->
  9 <= version s1 <= N -> N <= 14 ->
  (asV N s1).1 = (asV N s2).1 /\ (asV N s1).1 = Ok (migrated s1 N) /\
  (asLatest s1).1 = (asLatest s2).1 /\ (asLatest s1).1 = Ok (normalized s1).
Proof.
  intros Hr1 Hr2 Hreg Hmeta HV HN.
  pose proof (reachable_inv _ Hr1) as Hinv1.
  pose proof (reachable_inv _ Hr2) as Hinv2.
  assert (Hv : version s2 = version s1) by (unfold version; by rewrite Hmeta).
  assert (Hmig : forall n, migrated s2 n = migrated s1 n).
  { intros n. unfold migrated, version. by rewrite Hreg, Hmeta. }
  destruct (sound_asV N ltac:(lia) s1 Hinv1) as (r1 & s1' & -> & _ & _ & _ & _ & Hok1 & _).
  destruct (sound_asV N ltac:(lia) s2 Hinv2) as (r2 & s2' & -> & _ & _ & _ & _ & Hok2 & _).
  destruct (Hok1 ltac:(lia)) as [-> _]. destruct (Hok2 ltac:(lia)) as [-> _].
  destruct (asLatest_sound s1 Hinv1) as (l1 & t1 & -> & _ & _ & _ & Hl1 & _).
  destruct (asLatest_sound s2 Hinv2) as (l2 & t2 & -> & _ & _ & _ & Hl2 & _).
  destruct (Hl1 ltac:(lia)) as [-> _]. destruct (Hl2 ltac:(lia)) as [-> _].
  simpl. unfold normalized. rewrite !Hmig, Hv, Hreg. done.
Qed.

(** *** How much an instance can run and hold *)

Lemma ran_cacheable s k :
  inv s -> is_Some (converted s !! k) ->
  9 <= version s <= 14 /\ k ∈ cacheable (version s).
Proof.
  intros Hinv [x Hx]. apply (inv_expected _ Hinv) in Hx.
  destruct k as [|n]; simpl in Hx; case_decide; try done; (split; [lia|]);
    unfold cacheable; apply elem_of_app.
  - right. by apply list_elem_of_singleton.
  - left. apply list_elem_of_fmap. exists n. split; [done|].
    apply elem_of_seqZ. lia.
Qed.

Lemma cacheable_length V :
  length (cacheable V) = S (Z.to_nat (14 - V)).
Proof.
  unfold cacheable. rewrite length_app, length_fmap, length_seqZ. simpl. lia.
Qed.

(** Over its whole life an instance of source version V runs each transform
    at most once, and only those for the versions above V up to 14 and for
    'latest': at most 15 - V calls, never more than 6. *)
Theorem transforms_bounded s :
  reachable s ->
  NoDup (ran s) /\
  (forall k, k ∈ ran s <-> is_Some (converted s !! k)) /\
  (forall k, k ∈ ran s -> k ∈ cacheable (version s)) /\
  (length (ran s) <= Z.to_nat (15 - version s))%nat /\
  (length (ran s) <= 6)%nat.
Proof.
  intros Hreach. pose proof (reachable_inv _ Hreach) as Hinv.
  assert (Hin : forall k, k ∈ ran s ->
                  9 <= version s <= 14 /\ k ∈ cacheable (version s)).
  { intros k Hk. apply ran_cacheable; [done|]. by apply (inv_ran _ Hinv). }
  assert (Hlen : (length (ran s) <= Z.to_nat (15 - version s))%nat /\
                 (length (ran s) <= 6)%nat).
  { destruct (ran s) as [|k0 l] eqn:Hran; [simpl; lia|].
    destruct (Hin k0) as [Hwf _]; [by left|]. rewrite <- Hran in *.
    assert (Hsub : ran s ⊆+ cacheable (version s)).
    { apply NoDup_submseteq; [apply Hinv|]. intros k Hk. by apply Hin. }
    apply submseteq_length in Hsub. rewrite cacheable_length in Hsub. lia. }
  split; [apply Hinv|]. split; [apply Hinv|].
  split; [intros k Hk; by apply Hin|]. split; apply Hlen.
Qed.

(** *** getUniqTypes *)

(** getUniqTypes hands the normalized value to the function of ./util and
    returns what that returns; whether that returns or throws, the instance
    is left as asLatest leaves it, with the normalized value in the cache
    under 'latest'. *)
Theorem getUniqTypes_normalized s throwError :
  reachable s -> 9 <= version s <= 14 ->
  exists s',
    asLatest s = (Ok (normalized s), s') /\
    getUniqTypes util_getUniqTypes throwError s =
      (util_getUniqTypes (registry s) (normalized s) throwError, s') /\
    converted s' !! latest = Some (normalized s).
Proof.
  intros Hreach HV. pose proof (reachable_inv _ Hreach) as Hinv.
  destruct (asLatest_sound s Hinv) as (r & s' & Hrun & _ & Hcore & _ & Hok & _).
  destruct (Hok HV) as [-> Hcached].
  exists s'. split; [done|]. split; [|done].
  unfold getUniqTypes. rewrite Hrun. by destruct Hcore as (-> & _).
Qed.

(** *** The cache has no gap *)

(** The cache of an instance never has a gap: when it holds version n it
    holds every version between the source version and n, and when it holds
    'latest' it holds every version up to 14. *)
Theorem cache_no_gap s :
  reachable s ->
  (forall n, is_Some (converted s !! ver n) ->
     forall m, version s < m <= n -> is_Some (converted s !! ver m)) /\
  (is_Some (converted s !! latest) ->
     forall m, version s < m <= 14 -> is_Some (converted s !! ver m)).
Proof. apply reachable_no_gap. Qed.

(** Asked for version N, a new instance of source version V < N computes
    what it needs and nothing else: afterwards its cache holds exactly the
    versions V+1 .. N, and the transforms that ran are one for each of
    them. *)
Theorem asVN_lazy r magic meta N :
  9 <= index meta -> index meta <= N <= 14 ->
  let s' := (asV N (new r magic meta)).2 in
  (forall k, is_Some (converted s' !! k) <->
             exists m, k = ver m /\ index meta < m <= N) /\
  ran s' ≡ₚ ver <$> seqZ (index meta + 1) (N - index meta).
Proof.
  intros HV HN s'. set (s := new r magic meta).
  assert (Hinv : inv s) by apply inv_new.
  destruct (fills_asV N ltac:(lia) s Hinv (no_gap_new _ _ _)) as [_ Hfilled].
  destruct (sound_asV N ltac:(lia) s Hinv)
    as (x & s0 & Hrun & Hinv' & Hcore & [Hkl Hkv] & _ & Hok & _).
  fold s in s'. unfold s' in *. rewrite Hrun in *. simpl in *.
  destruct (Hok ltac:(unfold s, version; simpl; lia)) as [-> _].
  specialize (Hfilled eq_refl).
  pose proof (same_core_version _ _ Hcore) as Hv.
  change (version s) with (index meta) in *.
  assert (Hkeys : forall k, is_Some (converted s0 !! k) <->
                            exists m, k = ver m /\ index meta < m <= N).
  { intros k. split.
    - intros Hk. destruct k as [|m].
      + rewrite Hkl in Hk. unfold s in Hk. simpl in Hk.
        rewrite lookup_empty in Hk. by destruct Hk.
      + exists m. split; [done|].
        destruct (decide (m <= N)) as [Hle|Hgt].
        * destruct Hk as [y Hy]. apply (inv_expected _ Hinv') in Hy.
          simpl in Hy. case_decide; [lia|done].
        * rewrite Hkv in Hk by lia. unfold s in Hk. simpl in Hk.
          rewrite lookup_empty in Hk. by destruct Hk.
    - intros (m & -> & Hm). by apply Hfilled. }
  split; [done|].
  apply NoDup_Permutation.
  - apply Hinv'.
  - apply NoDup_fmap_2; [by intros ?? [=]|apply NoDup_seqZ].
  - intros k. rewrite (inv_ran _ Hinv'), Hkeys, list_elem_of_fmap.
    split; intros (m & -> & Hm); exists m; (split; [done|]).
    + apply elem_of_seqZ. lia.
    + apply elem_of_seqZ in Hm. lia.
Qed.

(** *** asCallsOnly and the store *)

(** asCallsOnly leaves every object but the one it is read off as it is.
    When it returns, the reference it returns is the one new position of the
    store, and the object there has an empty cache; when it throws, the
    store is as it was. *)
Theorem asCallsOnly_allocates (h : list MetadataVersioned) (this : nat) :
  let r := (asCallsOnly this h).1 in
  let h' := (asCallsOnly this h).2 in
  (forall i, i <> this -> (i < length h)%nat -> h' !! i = h !! i) /\
  (forall made, r = Ok made ->
     made = length h /\ length h' = S (length h) /\ is_Some (h !! this) /\
     exists o, h' !! made = Some o /\ converted o = ∅ /\ ran o = []) /\
  (forall e, r = Throw e -> h' = h).
Proof.
  unfold asCallsOnly. destruct (h !! this) as [o|] eqn:Hthis; simpl.
  - pose proof (lookup_lt_Some _ _ _ Hthis) as Hlt.
    destruct (asLatest o) as [[l|e] o'] eqn:Hrun; simpl.
    + assert (Hlen : length (<[this := o']> h) = length h) by apply length_insert.
      split.
      { intros i Hne Hi. rewrite lookup_app_l by lia.
        by apply list_lookup_insert_ne. }
      split.
      { intros made [= <-]. split; [done|].
        split; [rewrite length_app, Hlen; simpl; lia|]. split; [eauto|].
        eexists. split; [by apply list_lookup_middle|]. done. }
      done.
    + apply asLatest_throw_keeps in Hrun as ->.
      rewrite list_insert_id by done. repeat split; done.
  - repeat split; done.
Qed.

End Facts.

End MetadataMoreFacts.

(** ** More facts about StorageKey *)

Module StorageMoreFacts.

Import Storage StorageFacts StorageMore.

Section Facts.

Context `{Imports}.

Implicit Types (registry : Registry) (value : U8a) (offset : nat).
Implicit Types (entries : list (StorageHasher * option SiLookupTypeId)).
Implicit Types (this k : StorageKey) (sec meth : option string).

(** *** The arguments that decodeHashers returns *)

Lemma threads_opaque_args registry value offset entries args offset' :
  threads registry value offset entries args offset' ->
  forall i h t,
    entries !! i = Some (h, t) -> (hasher_kind_table h).2 = false ->
    exists u8a,
      args !! i = Some (Raw u8a) /\
      length u8a <= (hasher_kind_table h).1 /\
      (offset' <= length value -> length u8a = (hasher_kind_table h).1).
Proof.
  induction 1 as [offset|offset h t rest args offset' Hno Hrest IH
                 |offset h t rest decoded args offset' Hyes Hdec Hrest IH];
    intros i h0 t0 Hi Hopaque.
  - done.
  - destruct i as [|i]; [|by apply (IH i h0 t0)].
    injection Hi as <- <-. eexists. split; [done|].
    apply threads_offset in Hrest as [Hle _]. split.
    + rewrite subarray_short. lia.
    + intros Hfits. apply subarray_length. lia.
  - destruct i as [|i]; [|by apply (IH i h0 t0)].
    injection Hi as <- <-. congruence.
Qed.

Lemma threads_consumed registry value offset entries args offset' :
  threads registry value offset entries args offset' ->
  offset' = offset + consumed entries args.
Proof.
  induction 1 as [offset|offset h t rest args offset' Hno _ IH
                 |offset h t rest decoded args offset' Hyes _ _ IH]; simpl.
  - lia.
  - rewrite Hno. lia.
  - rewrite Hyes. lia.
Qed.

(** When decodeHashers returns there is one argument per hasher, and at the
    position of every opaque hasher a raw value of at most its hash length;
    of exactly its hash length when the key is as long as the offset the
    decoding ends at. *)
Theorem decodeHashers_arguments registry value entries offset' args :
  decodeHashers_reduce registry value entries = Ok (offset', args) ->
  decodeHashers registry value entries = Ok args /\
  length args = length entries /\
  forall i h t,
    entries !! i = Some (h, t) -> (hasher_kind_table h).2 = false ->
    exists u8a,
      args !! i = Some (Raw u8a) /\
      length u8a <= (hasher_kind_table h).1 /\
      (offset' <= length value -> length u8a = (hasher_kind_table h).1).
Proof.
  intros Hreduce. split; [unfold decodeHashers; by rewrite Hreduce|].
  apply reduce_threads in Hreduce as (args0 & [= ->] & Hthreads).
  split; [by apply threads_offset in Hthreads as [_ ?]|].
  by apply (threads_opaque_args _ _ _ _ _ _ Hthreads).
Qed.

(** The offset that the decoding ends at is 32 plus, for every hasher, its
    hash length and, when it is decodable, the encodedLength of its
    argument. *)
Theorem decodeHashers_offset registry value entries offset' args :
  decodeHashers_reduce registry value entries = Ok (offset', args) ->
  offset' = 32 + consumed entries args.
Proof.
  intros (args0 & [= ->] & Hthreads)%reduce_threads.
  by apply threads_consumed in Hthreads.
Qed.

Lemma threads_raw_args registry value entries :
  all_opaque entries ->
  forall offset,
    exists offset',
      threads registry value offset entries (raw_args value offset entries) offset'.
Proof.
  induction 1 as [|[h t] entries Hopaque _ IH]; intros offset; simpl.
  - eexists. constructor.
  - destruct (IH (offset + (hasher_kind_table h).1)) as [offset' Hrest].
    exists offset'. by apply threads_opaque.
Qed.

(** With opaque hashers only the decoding cannot throw, whatever the key
    and however short it is, and the registry plays no role: the arguments
    are the slices of the key, one hash length after the other from byte 32
    on. *)
Theorem decodeHashers_all_opaque registry value entries :
  all_opaque entries ->
  decodeHashers registry value entries = Ok (raw_args value 32 entries) /\
  forall registry',
    decodeHashers registry' value entries = decodeHashers registry value entries.
Proof.
  intros Hopaque.
  assert (Hany : forall r, decodeHashers r value entries
                           = Ok (raw_args value 32 entries)).
  { intros r. destruct (threads_raw_args r value entries Hopaque 32)
      as [offset' Hthreads].
    unfold decodeHashers, decodeHashers_reduce.
    by rewrite (threads_reduce _ _ _ _ _ _ Hthreads []). }
  split; [apply Hany|]. intros registry'. by rewrite !Hany.
Qed.

(** decodeArgsFromMeta by the number of hashers of a map: with one hasher
    the key type itself is decoded and the type table is not asked; with
    none or several the key type is looked up as a tuple, and when that
    throws so does decodeArgsFromMeta; with none and a tuple there are no
    arguments. *)
Lemma decodeArgsFromMeta_by_count registry value map :
  (forall h, hashers map = [h] ->
     decodeArgsFromMeta registry value (Some (mkMeta (Map map))) =
       decodeHashers registry value [(h, Some (key map))]) /\
  (forall e, length (hashers map) <> 1 ->
     getSiType_asTuple registry (key map) = Throw e ->
     decodeArgsFromMeta registry value (Some (mkMeta (Map map))) = Throw e) /\
  (forall keys, hashers map = [] ->
     getSiType_asTuple registry (key map) = Ok keys ->
     decodeArgsFromMeta registry value (Some (mkMeta (Map map))) = Ok []).
Proof.
  unfold decodeArgsFromMeta. simpl. split; [|split].
  - intros h ->. by rewrite decide_True.
  - intros e Hcount ->. by rewrite decide_False.
  - intros keys -> ->. by rewrite decide_False.
Qed.

(** *** setMeta *)

(** setMeta in one piece: the output type is named first, outside the try,
    and only then are the arguments decoded, inside it. *)
Lemma setMeta_unfold registry (m : option StorageEntryMetadataLatest) sec meth this :
  setMeta registry m sec meth this =
    match (match m with
           | Some m' => unwrapStorageType registry (type m') false
           | None => Ok (_outputType this)
           end) with
    | Throw e =>
        (Throw e,
         mkStorageKey (content this) (_args this) m (_outputType this)
           (or_else meth (_method this)) (or_else sec (_section this)))
    | Ok t =>
        (Ok tt,
         mkStorageKey (content this)
           (match decodeArgsFromMeta registry (content this) m with
            | Ok a => Some a
            | Throw _ => _args this
            end)
           m t (or_else meth (_method this)) (or_else sec (_section this)))
    end.
Proof.
  unfold setMeta, toU8a_bare. destruct m as [m'|].
  - destruct (unwrapStorageType registry (type m') false) as [t|e]; [|done].
    cbn [content _args _meta _outputType _method _section].
    by destruct (decodeArgsFromMeta _ _ _).
  - cbn [content _args _meta _outputType _method _section].
    by destruct (decodeArgsFromMeta _ _ _).
Qed.

Lemma or_else_cases (a b : option string) :
  or_else None b = b /\ or_else (Some EmptyString) b = b /\
  (forall s, s <> EmptyString -> or_else (Some s) b = Some s) /\
  (b <> Some EmptyString -> or_else a b <> Some EmptyString).
Proof.
  split; [done|]. split; [done|]. split.
  - by intros [|c s] Hs.
  - intros Hb. by destruct a as [[|c s]|].
Qed.

(** Whether it returns or throws, setMeta never changes the bytes of the
    key, stores the descriptor it is given, and takes a section or a method
    only when it is a string that is not empty: undefined and the empty
    string both leave the one the key had. *)
Theorem setMeta_labels registry (m : option StorageEntryMetadataLatest) sec meth this :
  let k := (setMeta registry m sec meth this).2 in
  content k = content this /\ meta k = m /\
  method k = or_else meth (method this) /\
  section k = or_else sec (section this) /\
  (meth = None \/ meth = Some EmptyString -> method k = method this) /\
  (forall s, s <> EmptyString -> meth = Some s -> method k = Some s) /\
  (sec = None \/ sec = Some EmptyString -> section k = section this) /\
  (forall s, s <> EmptyString -> sec = Some s -> section k = Some s).
Proof.
  intros k. unfold k. rewrite setMeta_unfold.
  destruct (match m with Some _ => _ | None => _ end) as [t|e]; simpl;
    unfold method, section;
    (split; [done|]; split; [done|]; split; [done|]; split; [done|]);
    (split; [by intros [->| ->]|]);
    (split; [intros s Hs ->; by apply or_else_cases|]);
    (split; [by intros [->| ->]|]);
    intros s Hs ->; by apply or_else_cases.
Qed.

(** A failure to name the output type is not swallowed: setMeta throws it,
    and leaves a key that has the new descriptor, section and method with
    the output type and the arguments of the old one. The constructor throws
    it as well on every input that carries the descriptor and gives it a
    key: for an entry function, alone or in an array, out of getType,
    before setMeta is reached; for a StorageKey out of setMeta. *)
Theorem setMeta_type_failure registry m sec meth this e :
  unwrapStorageType registry (type m) false = Throw e ->
  setMeta registry (Some m) sec meth this =
    (Throw e,
     mkStorageKey (content this) (_args this) (Some m) (_outputType this)
       (or_else meth (_method this)) (or_else sec (_section this))) /\
  (forall input override d bytes,
     getMeta input = Some m ->
     decodeStorageKey input = Ok d ->
     Bytes_decode registry (d_key d) = Ok bytes ->
     new registry input override = Throw e) /\
  (forall fn params,
     fn_meta fn = Some m ->
     getType registry (InStorageEntry fn) = Throw e /\
     getType registry (InArray fn params) = Throw e) /\
  (forall k, getType registry (InStorageKey k) = Ok (outputType k)).
Proof.
  intros Hname. split; [by rewrite setMeta_unfold, Hname|].
  split; [|split].
  - intros input override d bytes Hm Hd Hbytes. unfold new.
    rewrite Hd. cbn [mbind outcome_bind]. rewrite Hbytes. cbn [mbind outcome_bind].
    destruct input as [| | |k0|fn|fn params|]; simpl in Hm; try done.
    + cbn [getType mbind outcome_bind getMeta]. rewrite Hm.
      by rewrite setMeta_unfold, Hname.
    + cbn [getType]. by rewrite Hm, Hname.
    + cbn [getType]. by rewrite Hm, Hname.
  - intros fn params Hm. simpl. by rewrite Hm, Hname.
  - done.
Qed.

(** *** The constructor *)

(** What a constructor that returns has gone through. *)
Lemma new_steps registry input override k :
  new registry input override = Ok k ->
  exists d t0,
    decodeStorageKey input = Ok d /\
    Bytes_decode registry (d_key d) = Ok (content k) /\
    getType registry input = Ok t0 /\
    setMeta registry (getMeta input)
      (or_else (o_section override) (d_section d))
      (or_else (o_method override) (d_method d))
      (mkStorageKey (content k) None None t0 None None) = (Ok tt, k).
Proof.
  unfold new.
  destruct (decodeStorageKey input) as [d|e] eqn:Hd; [|done].
  cbn [mbind outcome_bind].
  destruct (Bytes_decode registry (d_key d)) as [bytes|e] eqn:Hbytes; [|done].
  cbn [mbind outcome_bind].
  destruct (getType registry input) as [t0|e] eqn:Ht0; [|done].
  cbn [mbind outcome_bind].
  destruct (setMeta _ _ _ _ _) as [[[]|e] k'] eqn:Hset; [|done].
  intros [= <-]. exists d, t0.
  assert (Hcontent : content k' = bytes).
  { rewrite setMeta_unfold in Hset.
    destruct (match getMeta input with Some _ => _ | None => _ end);
      [|done]. by injection Hset as <-. }
  by rewrite Hcontent.
Qed.

(** The constructor throws on an input that is none of the kinds it knows;
    on a map entry given with params it throws unless there is one param
    per hasher, whatever the entry function would do with them; and a
    storage entry function without a descriptor, which is accepted inside
    an array, is refused when passed on its own. *)
Theorem new_refuses registry override :
  new registry InOther override = Throw UnableToConvert /\
  (forall fn params map,
     fn_meta fn = Some (mkMeta (Map map)) ->
     length (default [] params) <> length (hashers map) ->
     new registry (InArray fn params) override =
       Throw (ExpectedParams (length (hashers map)))) /\
  (forall fn u8a bytes,
     fn_meta fn = None -> fn_call fn [] = Ok u8a ->
     Bytes_decode registry (KeyU8a u8a) = Ok bytes ->
     new registry (InStorageEntry fn) override =
       Throw (TypeError "type of undefined") /\
     exists k, new registry (InArray fn None) override = Ok k /\
               outputType k = "Raw" /\ args k = Some []).
Proof.
  split; [done|]. split.
  - intros fn params map Hmeta Hcount. unfold new, decodeStorageKey.
    rewrite Hmeta. cbv beta iota zeta. by destruct (decide _).
  - intros fn u8a bytes Hmeta Hcall Hbytes. split.
    + unfold new, decodeStorageKey, getType. rewrite Hcall. simpl.
      rewrite Hbytes. simpl. by rewrite Hmeta.
    + unfold new, decodeStorageKey, getType, getMeta. rewrite Hmeta. simpl.
      rewrite Hcall. simpl. rewrite Hbytes. simpl. eauto.
Qed.

(** The fields of the key that the constructor returns. *)
Lemma new_fields registry input override k :
  new registry input override = Ok k ->
  exists d,
    decodeStorageKey input = Ok d /\
    Bytes_decode registry (d_key d) = Ok (content k) /\
    meta k = getMeta input /\
    method k = or_else (or_else (o_method override) (d_method d)) None /\
    section k = or_else (or_else (o_section override) (d_section d)) None /\
    method k <> Some EmptyString /\ section k <> Some EmptyString /\
    (forall s, s <> EmptyString -> o_method override = Some s -> method k = Some s) /\
    (forall s, s <> EmptyString -> o_section override = Some s -> section k = Some s) /\
    (getMeta input = None -> getType registry input = Ok (outputType k)) /\
    (forall m, getMeta input = Some m ->
       unwrapStorageType registry (type m) false = Ok (outputType k)).
Proof.
  intros (d & t0 & Hd & Hbytes & Ht0 & Hset)%new_steps.
  exists d. split; [done|]. split; [done|].
  rewrite setMeta_unfold in Hset. cbn [content _args _outputType _method _section] in Hset.
  destruct (getMeta input) as [m|] eqn:Hmeta.
  - destruct (unwrapStorageType registry (type m) false) as [t|e] eqn:Hname; [|done].
    injection Hset as <-. unfold meta, method, section, outputType. simpl.
    split; [done|]. split; [done|]. split; [done|].
    split; [by apply or_else_cases|]. split; [by apply or_else_cases|].
    split. { intros s Hs ->. by destruct s. }
    split. { intros s Hs ->. by destruct s. }
    split; [done|]. by intros m' [= <-].
  - injection Hset as <-. unfold meta, method, section, outputType. simpl.
    split; [done|]. split; [done|]. split; [done|].
    split; [by apply or_else_cases|]. split; [by apply or_else_cases|].
    split. { intros s Hs ->. by destruct s. }
    split. { intros s Hs ->. by destruct s. }
    split; [done|]. done.
Qed.

(** The arguments of the key that the constructor returns. *)
Lemma new_decoded registry input override k :
  new registry input override = Ok k ->
  args k = match decodeArgsFromMeta registry (content k) (meta k) with
           | Ok a => Some a
           | Throw _ => None
           end.
Proof.
  intros (d & t0 & Hd & Hbytes & Ht0 & Hset)%new_steps.
  rewrite setMeta_unfold in Hset. cbn [content _args _outputType _method _section] in Hset.
  destruct (match getMeta input with Some _ => _ | None => _ end) as [t|e];
    [|done]. by injection Hset as <-.
Qed.

(** The key that the constructor returns has the bytes that Bytes decodes
    from the input and the descriptor of the input. Its method is the
    override's, if that is a string that is not empty, else the input's,
    and likewise its section; neither is ever the empty string. Without a
    descriptor its output type is the one the input gives (Raw for bytes
    and strings), with one it is the name of the descriptor's type. *)
Theorem new_key registry input override k :
  new registry input override = Ok k ->
  exists d,
    decodeStorageKey input = Ok d /\
    Bytes_decode registry (d_key d) = Ok (content k) /\
    meta k = getMeta input /\
    method k = or_else (or_else (o_method override) (d_method d)) None /\
    section k = or_else (or_else (o_section override) (d_section d)) None /\
    method k <> Some EmptyString /\ section k <> Some EmptyString /\
    (forall s, s <> EmptyString -> o_method override = Some s -> method k = Some s) /\
    (forall s, s <> EmptyString -> o_section override = Some s -> section k = Some s) /\
    (getMeta input = None -> getType registry input = Ok (outputType k)) /\
    (forall m, getMeta input = Some m ->
       unwrapStorageType registry (type m) false = Ok (outputType k)).
Proof. apply new_fields. Qed.

(** The arguments of the key that the constructor returns are what
    decodeArgsFromMeta returns on its bytes and its descriptor; when that
    throws they are undefined, never an empty list, and then toHuman, and
    only then, throws. *)
Theorem new_args registry input override k :
  new registry input override = Ok k ->
  (forall a, args k = Some a <->
             decodeArgsFromMeta registry (content k) (meta k) = Ok a) /\
  (args k = None <->
   exists e, decodeArgsFromMeta registry (content k) (meta k) = Throw e) /\
  (is_ok (toHuman k) = false <-> args k = None).
Proof.
  intros Hargs%new_decoded.
  split; [|split].
  - intros a. rewrite Hargs. clear.
    destruct (decodeArgsFromMeta registry (content k) (meta k)) as [a0|e];
      split; intros [=]; by subst.
  - rewrite Hargs. clear.
    destruct (decodeArgsFromMeta registry (content k) (meta k)) as [a0|e];
      split; try done.
    + by intros [e [=]].
    + eauto.
  - unfold toHuman, args. destruct (_args k) as [[|c a]|]; by split.
Qed.

(** Building a key from a key: when Bytes gives back the bytes of a Bytes
    it is handed, the constructor applied to a key that the constructor
    returned returns that key again. *)
Theorem new_of_key registry input override k :
  new registry input override = Ok k ->
  Bytes_decode registry (KeyBytes (content k)) = Ok (content k) ->
  new registry (InStorageKey k) (mkOverride None None) = Ok k.
Proof.
  intros Hnew Hcopy.
  destruct (new_fields _ _ _ _ Hnew)
    as (d & _ & _ & Hmeta & _ & _ & Hmethod & Hsection & _ & _ & Hraw & Hnamed).
  pose proof (new_decoded _ _ _ _ Hnew) as Hargs.
  unfold new, decodeStorageKey, getType, getMeta.
  cbn [mbind outcome_bind d_key d_method d_section o_method o_section].
  rewrite Hcopy. cbn [mbind outcome_bind].
  rewrite setMeta_unfold. cbn [content _args _outputType _method _section or_else].
  assert (Hm : or_else (method k) None = method k).
  { destruct (method k) as [[|c s]|]; done. }
  assert (Hs : or_else (section k) None = section k).
  { destruct (section k) as [[|c s]|]; done. }
  rewrite Hm, Hs. rewrite <- Hargs.
  destruct (meta k) as [m|] eqn:Hk.
  - rewrite (Hnamed m) by (symmetry; exact Hmeta).
    destruct k. unfold meta, args, method, section, outputType in *.
    simpl in *. by subst.
  - destruct k. unfold meta, args, method, section, outputType in *.
    simpl in *. by subst.
Qed.

(** is is an equivalence on keys: every key matches itself, matching does
    not depend on which of the two keys is asked, and two keys that match a
    third match each other. *)
Theorem is_equivalence :
  (forall k, is_ k k = true) /\
  (forall k1 k2, is_ k1 k2 = is_ k2 k1) /\
  (forall k1 k2 k3, is_ k1 k2 = true -> is_ k2 k3 = true -> is_ k1 k3 = true).
Proof.
  unfold is_. split; [|split].
  - intros k. by rewrite !bool_decide_eq_true_2.
  - intros k1 k2. f_equal; apply bool_decide_ext; split; congruence.
  - intros k1 k2 k3.
    rewrite !andb_true_iff, !bool_decide_eq_true. intros [? ?] [? ?].
    split; congruence.
Qed.

End Facts.

End StorageMoreFacts.

(** ** The further facts on concrete instances *)

Module MoreRuns.

Import Democracy DemocracyFacts Sample2.

#[local] Open Scope Z_scope.

(** 1/3 < 1/2, and 7/3 is not below 9/4. *)
Lemma compareRationals_less_witness :
  0 <= 1 /\ 0 < 3 /\ 0 < 2 /\
  compareRationals 1 3 1 2 = Ok (bool_decide (1 * 2 < 1 * 3)).
Proof.
  split; [lia|]. split; [lia|]. split; [lia|].
  apply (compareRationals_less 1 3 1 2); lia.
Defined.

Example compareRationals_runs :
  compareRationals 1 3 1 2 = Ok true /\ compareRationals 7 3 9 4 = Ok false /\
  compareRationals 2 4 1 2 = Ok false /\ compareRationals 1 0 1 2 = Throw zero_divisor.
Proof. vm_compute. repeat split. Qed.

(** 30 ayes and 10 nays out of 40 voters in an electorate of 100: the
    square roots are 6 and 10, and 10 / 6 < 30 / 10. *)
Lemma calcPassing_decides_witness :
  bnSqrt 40 = Ok 6 /\
  calcPassing bnSqrt SuperMajorityApprove 10 (mkApproxState 30 10 40) =
    Ok (bool_decide (6 <> 0 /\ 10 * 10 < 30 * 6)).
Proof.
  split; [reflexivity|].
  apply (calcPassing_decides bnSqrt SuperMajorityApprove 10
           (mkApproxState 30 10 40) 6); [reflexivity|lia|lia|simpl; lia|simpl; lia].
Defined.

(** The three votes under a simple majority: 120 against 5. *)
Lemma calcVotes_lists_witness :
  calcVotes bnSqrt 10 (mkStatus SimpleMajority None) three_votes =
    Ok (mkVotes (calcVotesPrev three_votes) true three_votes) /\
  allAye (calcVotesPrev three_votes) = votesAye three_votes /\
  voteCount (calcVotesPrev three_votes) = 3.
Proof.
  split; [vm_compute; reflexivity|].
  destruct (calcVotes_lists bnSqrt nat 10 (mkStatus SimpleMajority None) three_votes
              (mkVotes (calcVotesPrev three_votes) true three_votes) eq_refl)
    as (_ & Haye & _ & Hcount & _).
  split; [exact Haye|exact Hcount].
Defined.

Example calcVotesPrev_runs :
  state_votedAye (calcVotesPrev three_votes) = 120 /\
  state_votedNay (calcVotesPrev three_votes) = 5 /\
  state_votedTotal (calcVotesPrev three_votes) = 125 /\
  voteCountAye (calcVotesPrev three_votes) = 2.
Proof. vm_compute. repeat split. Qed.

(** A zero denominator on either side, and none. *)
Lemma compareRationals_throws_witness :
  compareRationals 1 3 1 0 = Throw zero_divisor /\
  exists b, compareRationals 1 3 1 2 = Ok b.
Proof.
  split.
  - apply (proj1 (compareRationals_throws 1 3 1 0)). right. reflexivity.
  - apply (proj2 (compareRationals_throws 1 3 1 2)); lia.
Defined.

(** The same referendum in an electorate of none. *)
Lemma calcPassing_no_electorate_witness :
  bnSqrt 40 = Ok 6 /\
  calcPassing bnSqrt SuperMajorityAgainst 0 (mkApproxState 30 10 40)
    = Throw zero_divisor.
Proof.
  split; [reflexivity|].
  apply (calcPassing_no_electorate bnSqrt SuperMajorityAgainst
           (mkApproxState 30 10 40) 6); [discriminate|reflexivity|lia].
Defined.

(** Two eras with three rewards, the second absent, and with one reward. *)
Lemma mapRewards_pairs_witness :
  EraRewards.mapRewards (default 0) [1%nat; 2%nat] [Some 5; None; Some 7]
    = Ok [EraRewards.mkEraRewards 1%nat 5; EraRewards.mkEraRewards 2%nat 0] /\
  EraRewards.mapRewards (default 0) [1%nat; 2%nat] [Some 5]
    = Throw (TypeError "unwrapOrDefault of undefined").
Proof.
  split.
  - apply (proj1 (proj1 (EraRewardsFacts.mapRewards_pairs nat Z (option Z) (default 0)
                           [1%nat; 2%nat] [Some 5; None; Some 7])
                    ltac:(simpl; lia))).
  - apply (proj2 (EraRewardsFacts.mapRewards_pairs nat Z (option Z) (default 0)
                    [1%nat; 2%nat] [Some 5])).
    simpl. lia.
Defined.

(** A transaction without a gas limit in a block of weight 2 * 10^12. *)
Lemma getGas_limits_witness :
  Contract.getGas (Contract.mkConsts (Some 2000000000000) None) 7 false = Ok 7 /\
  exists gas,
    Contract.getGas (Contract.mkConsts (Some 2000000000000) None) 0 false = Ok gas /\
    100 * gas <= 64 * 2000000000000 < 100 * (gas + 1) /\
    0 <= gas <= 2000000000000 /\ (gas = 0 <-> 2000000000000 < 2).
Proof.
  split.
  - apply (proj1 (ContractFacts.getGas_limits
                    (Contract.mkConsts (Some 2000000000000) None) 7 false)).
    lia.
  - apply (proj2 (proj2 (proj2 (ContractFacts.getGas_limits
                    (Contract.mkConsts (Some 2000000000000) None) 0 false))
                    ltac:(lia) eq_refl) 2000000000000 eq_refl).
    lia.
Defined.

End MoreRuns.

Module MoreMetadataRuns.

Import Metadata Sample Sample2 MetadataFacts MetadataMore MetadataMoreFacts.

#[local] Existing Instance metadata_imports.

#[local] Open Scope Z_scope.

(** A version 9 instance after asV12 was read off it. *)
Lemma read_to_12 : reachable (after (Get AsV12) (fresh 9)).
Proof. apply reachable_after, reachable_new. Defined.

Lemma access_keeps_witness :
  reachable (fresh 9) /\
  same_core (fresh 9) (after GetLatest (fresh 9)) /\
  version (after GetLatest (fresh 9)) = version (fresh 9).
Proof.
  split; [apply reachable_new|].
  destruct (access_keeps (fresh 9) GetLatest (reachable_new _ _ _))
    as (Hcore & _ & _ & Hv).
  split; [exact Hcore|exact Hv].
Defined.

Lemma access_twice_witness :
  reachable (fresh 9) /\
  forall r s', asLatest (fresh 9) = (r, s') -> asLatest s' = (r, s').
Proof.
  split; [apply reachable_new|].
  apply (proj1 (proj2 (access_twice (fresh 9) (reachable_new _ _ _)))).
Defined.

(** A new version 9 instance and one that has been read up to version 12
    return the same version 14 and the same latest. *)
Lemma reads_agree_witness :
  reachable (fresh 9) /\ reachable (after (Get AsV12) (fresh 9)) /\
  (asV 14 (fresh 9)).1 = (asV 14 (after (Get AsV12) (fresh 9))).1 /\
  (asLatest (fresh 9)).1 = (asLatest (after (Get AsV12) (fresh 9))).1.
Proof.
  split; [apply reachable_new|]. split; [exact read_to_12|].
  destruct (reads_agree (fresh 9) (after (Get AsV12) (fresh 9)) 14
              (reachable_new _ _ _) read_to_12 eq_refl eq_refl
              ltac:(change (9 <= 9 <= 14); lia) ltac:(lia))
    as (Hv & _ & Hl & _).
  split; [exact Hv|exact Hl].
Defined.

Lemma transforms_bounded_witness :
  reachable (after (Get AsV12) (fresh 9)) /\
  (length (ran (after (Get AsV12) (fresh 9))) <= 6)%nat.
Proof.
  split; [exact read_to_12|].
  apply (transforms_bounded _ read_to_12).
Defined.

Lemma getUniqTypes_normalized_witness :
  reachable (fresh 13) /\ 9 <= version (fresh 13) <= 14 /\
  exists s',
    asLatest (fresh 13) = (Ok [14; 0], s') /\
    getUniqTypes no_types true (fresh 13) = (Ok [], s') /\
    converted s' !! latest = Some [14; 0].
Proof.
  split; [apply reachable_new|]. split; [change (9 <= 13 <= 14); lia|].
  apply (getUniqTypes_normalized no_types (fresh 13) true (reachable_new _ _ _)).
  change (9 <= 13 <= 14). lia.
Defined.

(** After asV12 was read off a version 9 instance the cache holds version
    12, and so versions 10 and 11 as well. *)
Lemma cache_no_gap_witness :
  reachable (after (Get AsV12) (fresh 9)) /\
  is_Some (converted (after (Get AsV12) (fresh 9)) !! ver 12) /\
  forall m, 9 < m <= 12 ->
    is_Some (converted (after (Get AsV12) (fresh 9)) !! ver m).
Proof.
  assert (Hheld : is_Some (converted (after (Get AsV12) (fresh 9)) !! ver 12)).
  { exists [10; 11; 12]. vm_compute. reflexivity. }
  split; [exact read_to_12|]. split; [exact Hheld|].
  apply (proj1 (cache_no_gap _ read_to_12) 12 Hheld).
Defined.

Lemma asVN_lazy_witness :
  9 <= 9 /\ 9 <= 12 <= 14 /\
  ran (asV 12 (fresh 9)).2 ≡ₚ [ver 10; ver 11; ver 12].
Proof.
  split; [lia|]. split; [lia|].
  apply (proj2 (asVN_lazy (H := metadata_imports) tt MAGIC_NUMBER
                  (mkMetadataAll 9 []) 12
                  ltac:(simpl; lia) ltac:(simpl; lia))).
Defined.

(** asCallsOnly read off the one object of a store. *)
Lemma asCallsOnly_allocates_witness :
  (asCallsOnly 0 [fresh 9]).1 = Ok 1%nat /\
  length (asCallsOnly 0 [fresh 9]).2 = 2%nat.
Proof.
  split; [reflexivity|].
  destruct (asCallsOnly_allocates (H := metadata_imports) [fresh 9] 0)
    as (_ & Hmade & _).
  destruct (Hmade 1%nat eq_refl) as (_ & Hlen & _).
  exact Hlen.
Defined.

End MoreMetadataRuns.

Module MoreStorageRuns.

Import Storage Sample Sample2 StorageFacts StorageMore StorageMoreFacts.

#[local] Existing Instance storage_imports.

(** The key of [StorageRuns.decode_two]: 16 opaque bytes, 8 bytes of hash
    and one byte of argument. *)
Lemma decodeHashers_arguments_witness :
  decodeHashers_reduce tt
    (prefix ++ repeat xff 16 ++ repeat xee 8 ++ [x07])
    [(Blake2_128, Some 0); (Twox64Concat, Some 1)]
    = Ok (57, [Raw (repeat xff 16); Typed x07]) /\
  length [Raw (repeat xff 16); Typed x07] = 2.
Proof.
  split; [vm_compute; reflexivity|].
  apply (decodeHashers_arguments (H := storage_imports) tt
           (prefix ++ repeat xff 16 ++ repeat xee 8 ++ [x07])
           [(Blake2_128, Some 0); (Twox64Concat, Some 1)] 57
           [Raw (repeat xff 16); @Typed storage_imports x07] eq_refl).
Defined.

Lemma decodeHashers_offset_witness :
  57 = 32 + consumed
              [(Blake2_128, Some 0); (Twox64Concat, Some 1)]
              [Raw (repeat xff 16); Typed x07].
Proof.
  apply (decodeHashers_offset (H := storage_imports) tt
           (prefix ++ repeat xff 16 ++ repeat xee 8 ++ [x07])
           [(Blake2_128, Some 0); (Twox64Concat, Some 1)] 57
           [Raw (repeat xff 16); @Typed storage_imports x07] eq_refl).
Defined.

(** Two opaque hashers on a key that ends in the middle of the second. *)
Lemma decodeHashers_all_opaque_witness :
  all_opaque [(Twox128, Some 0); (Blake2_256, Some 1)] /\
  decodeHashers tt (prefix ++ repeat xff 20)
    [(Twox128, Some 0); (Blake2_256, Some 1)]
    = Ok [Raw (repeat xff 16); Raw (repeat xff 4)].
Proof.
  assert (Hopaque : all_opaque [(Twox128, Some 0); (Blake2_256, Some 1)]).
  { repeat constructor. }
  split; [exact Hopaque|].
  apply (proj1 (decodeHashers_all_opaque (H := storage_imports) tt
                  (prefix ++ repeat xff 20) _ Hopaque)).
Defined.

(** In a registry that cannot name the value type of the map: setMeta on a
    key, and the constructor on the entry function of the map and on a key
    that carries its descriptor. *)
Lemma setMeta_type_failure_witness :
  unwrapStorageType (H := storage_unnamed) tt (type (map_meta Twox64Concat)) false
    = Throw (Raised "no such type") /\
  setMeta (H := storage_unnamed) tt (Some (map_meta Twox64Concat)) None (Some "account")
    (mkStorageKey prefix (Some []) None "Raw" None None)
    = (Throw (Raised "no such type"),
       mkStorageKey prefix (Some []) (Some (map_meta Twox64Concat)) "Raw"
         (Some "account") None) /\
  new (H := storage_unnamed) tt (InStorageEntry unnamed_entry) (mkOverride None None)
    = Throw (Raised "no such type") /\
  new (H := storage_unnamed) tt
    (InStorageKey (mkStorageKey prefix (Some []) (Some (map_meta Twox64Concat))
                     "Raw" None None))
    (mkOverride None None)
    = Throw (Raised "no such type").
Proof.
  split; [reflexivity|].
  destruct (setMeta_type_failure (H := storage_unnamed) tt
              (map_meta Twox64Concat) None (Some "account")
              (mkStorageKey prefix (Some []) None "Raw" None None)
              (Raised "no such type") eq_refl)
    as (Hset & Hnew & _).
  split; [exact Hset|]. split.
  - apply (Hnew (InStorageEntry unnamed_entry) (mkOverride None None)
             (mkDecoded (KeyU8a prefix) (Some "account") (Some "system")) prefix
             eq_refl eq_refl eq_refl).
  - apply (Hnew (InStorageKey
                   (mkStorageKey prefix (Some []) (Some (map_meta Twox64Concat))
                      "Raw" None None))
             (mkOverride None None)
             (mkDecoded (KeyBytes prefix) None None) prefix
             eq_refl eq_refl eq_refl).
Defined.

(** The key that the constructor makes of [map_entry Twox64Concat]. *)
Lemma new_short_key :
  new tt (InStorageEntry (map_entry Twox64Concat))
    (mkOverride None None) = Ok short_key.
Proof. vm_compute. reflexivity. Defined.

Lemma new_key_witness :
  new tt (InStorageEntry (map_entry Twox64Concat))
    (mkOverride None None) = Ok short_key /\
  method short_key <> Some EmptyString /\
  meta short_key = Some (map_meta Twox64Concat).
Proof.
  split; [exact new_short_key|].
  destruct (new_key (H := storage_imports) tt _ _ _ new_short_key)
    as (d & _ & _ & Hmeta & _ & _ & Hmethod & _).
  split; [exact Hmethod|exact Hmeta].
Defined.

(** The key that the constructor makes of [pair_entry] and two params. *)
Lemma new_unread_key :
  new tt (InArray pair_entry (Some [[x01]; [x02]]))
    (mkOverride None None) = Ok unread_key.
Proof. vm_compute. reflexivity. Defined.

(** On a key whose arguments decode, and on one where asTuple throws. *)
Lemma new_args_witness :
  new tt (InStorageEntry (map_entry Twox64Concat))
    (mkOverride None None) = Ok short_key /\
  (is_ok (toHuman short_key) = false <-> args short_key = None) /\
  new tt (InArray pair_entry (Some [[x01]; [x02]]))
    (mkOverride None None) = Ok unread_key /\
  (args unread_key = None <->
   exists e, decodeArgsFromMeta tt (content unread_key) (meta unread_key) = Throw e).
Proof.
  split; [exact new_short_key|].
  split; [apply (new_args (H := storage_imports) tt _ _ _ new_short_key)|].
  split; [exact new_unread_key|].
  apply (new_args (H := storage_imports) tt _ _ _ new_unread_key).
Defined.

Lemma new_of_key_witness :
  Bytes_decode tt (KeyBytes (content short_key))
    = Ok (content short_key) /\
  new tt (InStorageKey short_key) (mkOverride None None)
    = Ok short_key.
Proof.
  split; [reflexivity|].
  apply (new_of_key (H := storage_imports) tt _ _ _ new_short_key eq_refl).
Defined.

(** A method that is given, and a section that is not. *)
Lemma setMeta_labels_witness :
  method (setMeta tt None None (Some "account")
            (mkStorageKey prefix (Some []) None "Raw" None (Some "system"))).2
    = Some "account" /\
  section (setMeta tt None None (Some "account")
             (mkStorageKey prefix (Some []) None "Raw" None (Some "system"))).2
    = Some "system".
Proof.
  destruct (setMeta_labels (H := storage_imports) tt None None (Some "account")
              (mkStorageKey prefix (Some []) None "Raw" None (Some "system")))
    as (_ & _ & _ & _ & _ & Hmethod & Hsection & _).
  split.
  - apply (Hmethod "account"); [discriminate|reflexivity].
  - apply Hsection. left. reflexivity.
Defined.

(** An entry function without a descriptor, and a map entry with two params
    for its one hasher. *)
Lemma new_refuses_witness :
  new tt (InStorageEntry (mkStorageEntry (fun _ => Ok prefix) None "account" "system"))
    (mkOverride None None) = Throw (TypeError "type of undefined") /\
  new tt (InArray (map_entry Twox64Concat) (Some [[x07]; [x07]]))
    (mkOverride None None) = Throw (ExpectedParams 1).
Proof.
  destruct (new_refuses (H := storage_imports) tt (mkOverride None None))
    as (_ & Hparams & Hbare).
  split.
  - apply (proj1 (Hbare (mkStorageEntry (fun _ => Ok prefix) None "account" "system")
                    prefix prefix eq_refl eq_refl eq_refl)).
  - apply (Hparams (map_entry Twox64Concat) (Some [[x07]; [x07]])
             (mkMapType [Twox64Concat] 0%nat 1%nat) eq_refl).
    simpl. lia.
Defined.

Lemma is_equivalence_witness :
  is_ short_key short_key = true.
Proof.
  apply (proj1 (is_equivalence (H := storage_imports))).
Defined.

End MoreStorageRuns.
